(** * Generational-index containers of the [muds] collections crates

    A shallow embedding of
    - [genindex]: the three handle encodings [IndexPair], [IndexU64] and
      [IndexF64] ([src/crates/genindex/src]);
    - [collections::PagedSlotMap] ([maps/slotmap.rs]);
    - [collections::SparseSet] ([maps/sparseset.rs]).

    The slot map and the sparse set are modelled at their default handle
    type [IndexPair<usize, usize>]: the index is a [nat] (it addresses
    Rust vectors, modelled as lists), the generation an [N] so that
    [usize::MAX] is computable. *)

From Stdlib Require Import ZArith Lia Sorted.
From stdpp Require Import base list.

Open Scope nat_scope.

(* ================================================================== *)
(** ** The handle encodings (genindex) *)

Definition usize_max : N := (2 ^ 64 - 1)%N.

(** [IndexPair<I, G>] (pair.rs): a two-field tuple struct. *)
Module IndexPair.
Record IndexPair (I G : Type) := mk { ip_index : I; ip_generation : G }.
Arguments mk {I G} _ _.
Arguments ip_index {I G} _.
Arguments ip_generation {I G} _.

Definition from_raw_parts {I G} (index : I) (generation : G) : IndexPair I G :=
  mk index generation.
Definition index {I G} (h : IndexPair I G) : I := ip_index h.
Definition generation {I G} (h : IndexPair I G) : G := ip_generation h.
End IndexPair.

(** [IndexU64] (indexu64.rs): index in the low 32 bits of a [u64],
  generation in the high 32 bits. *)
Module IndexU64.
Definition u32_max : Z := (2 ^ 32 - 1)%Z.
Definition u64_wrap (z : Z) : Z := (z mod 2 ^ 64)%Z.

Record IndexU64 := mk { raw : Z }.

(** [Self(index as u64 + ((generation as u64) << 32))]; [u64] arithmetic
    wraps (release build). *)
Definition from_raw_parts (index generation : Z) : IndexU64 :=
  mk (u64_wrap (index + u64_wrap (Z.shiftl generation 32))).
(** [(self.0 & (u32::MAX as u64)) as u32] *)
Definition index (h : IndexU64) : Z := Z.land (raw h) u32_max.
(** [(self.0 >> 32) as u32] *)
Definition generation (h : IndexU64) : Z := (Z.shiftr (raw h) 32 mod 2 ^ 32)%Z.

(** [GenIndex::max_generation]: [u32::MAX]. *)
Definition max_generation : Z := u32_max.

(** [GenIndex::next_generation] (the trait's default method). *)
Definition next_generation (h : IndexU64) : IndexU64 :=
  let g := generation h in
  let g' := if (g =? max_generation)%Z then 1%Z else (g + 1)%Z in
  from_raw_parts (index h) g'.

(** [PartialOrd::partial_cmp]: equal raw values are equal; otherwise the
    indices decide, and equal indices are incomparable. *)
Definition partial_cmp (a b : IndexU64) : option comparison :=
  if (raw a =? raw b)%Z then Some Eq
  else match Z.compare (index a) (index b) with
       | Eq => None
       | o => Some o
       end.
End IndexU64.

(** [IndexF64] (indexf64.rs): the [u64] layout of [IndexU64] carried in an
  [f64], with the generation masked to 21 bits. Every float this code
  builds is integral, so an [f64] is modelled by the integer it holds;
  the conversions [as f64] round to nearest, ties to even, at 53
  significant bits, and [as u64] truncates and saturates. *)
Module IndexF64.
Definition MAX_SAFE_GENERATION : Z := (2 ^ 21 - 1)%Z.
Definition u32_max : Z := (2 ^ 32 - 1)%Z.

(** Round an integer to the nearest [f64] (53-bit significand, ties to
    even). *)
Definition f64_round (z : Z) : Z :=
  if (Z.abs z <? 2 ^ 53)%Z then z
  else
    let e := (Z.log2 (Z.abs z) - 52)%Z in
    let q := (z / 2 ^ e)%Z in
    let r := (z mod 2 ^ e)%Z in
    let half := (2 ^ (e - 1))%Z in
    let q' := if (r <? half)%Z then q
              else if (half <? r)%Z then (q + 1)%Z
              else if Z.even q then q else (q + 1)%Z in
    (q' * 2 ^ e)%Z.

(** [f as u64]: truncation (integral here) and saturation. *)
Definition f64_to_u64 (f : Z) : Z :=
  if (f <? 0)%Z then 0%Z else if (2 ^ 64 - 1 <? f)%Z then (2 ^ 64 - 1)%Z else f.

Record IndexF64 := mk { value : Z }.

(** [Self(index as f64 + (((generation & MAX_SAFE_GENERATION) as u64) << 32) as f64)] *)
Definition from_raw_parts (index generation : Z) : IndexF64 :=
  let hi := ((Z.shiftl (Z.land generation MAX_SAFE_GENERATION) 32) mod 2 ^ 64)%Z in
  mk (f64_round (f64_round index + f64_round hi)).
(** [(self.0 as u64 & (u32::MAX as u64)) as u32] *)
Definition index (h : IndexF64) : Z := Z.land (f64_to_u64 (value h)) u32_max.
(** [((self.0 as u64) >> 32) as u32] *)
Definition generation (h : IndexF64) : Z :=
  (Z.shiftr (f64_to_u64 (value h)) 32 mod 2 ^ 32)%Z.

(** [MAX_SAFE_VALUE] *)
Definition MAX_SAFE_VALUE : Z := (2 ^ 53 - 1)%Z.

(** [GenIndex::max_generation]: [MAX_SAFE_GENERATION]. *)
Definition max_generation : Z := MAX_SAFE_GENERATION.

(** [GenIndex::next_generation] (the trait's default method). *)
Definition next_generation (h : IndexF64) : IndexF64 :=
  let g := generation h in
  let g' := if (g =? max_generation)%Z then 1%Z else (g + 1)%Z in
  from_raw_parts (index h) g'.

(** [From<f64>]: [IndexF64((value as u64 & MAX_SAFE_VALUE) as f64)], for
    an integral [value]. *)
Definition from_f64 (value : Z) : IndexF64 :=
  mk (f64_round (Z.land (f64_to_u64 value) MAX_SAFE_VALUE)).
End IndexF64.

(* ================================================================== *)
(** ** The default handle type [IndexPair<usize, usize>] *)

Abbreviation handle := (IndexPair.IndexPair nat N).
Abbreviation index := IndexPair.index.
Abbreviation generation := IndexPair.generation.
Abbreviation from_raw_parts := IndexPair.from_raw_parts.

#[global] Instance handle_eq_dec : EqDecision handle.
Proof. intros [a b] [c d]. unfold Decision. decide equality; solve_decision. Defined.

(** [Default]: the all-zero handle. *)
#[global] Instance handle_inhabited : Inhabited handle :=
  populate (IndexPair.mk 0 0%N).

(** [GenIndex::max_generation] for [IndexPair<_, usize>]: [usize::MAX]. *)
Definition max_generation : N := usize_max.

(** [GenIndex::from_index]: generation [One::one()]. *)
Definition from_index (i : nat) : handle := from_raw_parts i 1%N.

(** [GenIndex::next_generation]: wraps from the maximum back to one. *)
Definition next_generation (h : handle) : handle :=
  let g := generation h in
  let g' := if (g =? max_generation)%N then 1%N else (g + 1)%N in
  from_raw_parts (index h) g'.


(** [PartialOrd::partial_cmp] for [IndexPair]: the indices decide; equal
    indices are equal with equal generations, incomparable otherwise. *)
Definition partial_cmp (a b : handle) : option comparison :=
  match Nat.compare (index a) (index b) with
  | Eq => if (generation a =? generation b)%N then Some Eq else None
  | o => Some o
  end.

(* ================================================================== *)
(** ** PagedSlotMap (slotmap.rs) *)

Module SlotMap.
Section SlotMap.
Context {T : Type}.
(** The page size, the const generic [N] of [PagedSlotMap<T, I, N>]. *)
Context (PN : nat).

(** A [MaybeUninit<T>] cell: [None] is memory holding no value (never
    written, or dropped). *)
Abbreviation cell := (option T).
Abbreviation page := (list cell).

Record PagedSlotMap := mkMap {
  indices : list handle;
  values : list page;
  free_list_head : nat;
  free_list_tail : nat;
  free_list_size : nat;
}.

Definition new : PagedSlotMap := mkMap [] [] 0 0 0.

(** [new_page]: [N] uninitialised cells. *)
Definition new_page : page := replicate PN None.

(** [len]: [indices.len() - free_list_size]. *)
Definition len (m : PagedSlotMap) : nat := length (indices m) - free_list_size m.

Definition clear (m : PagedSlotMap) : PagedSlotMap := mkMap [] [] 0 0 0.

(** [get_value_unchecked]: page [idx / N], offset [idx % N]; [None] for
    memory without a value (reading it is undefined behaviour in Rust). *)
Definition get_value (vals : list page) (idx : nat) : cell :=
  match vals !! (idx / PN) with
  | Some p => match p !! (idx mod PN) with Some c => c | None => None end
  | None => None
  end.

(** [get_value_unchecked_mut(..).write(v)] *)
Definition write_value (vals : list page) (idx : nat) (v : T) : list page :=
  alter (fun p => <[idx mod PN := Some v]> p) (idx / PN) vals.

(** [assume_init_drop]: the cell no longer holds a value. *)
Definition drop_value (vals : list page) (idx : nat) : list page :=
  alter (fun p => <[idx mod PN := None]> p) (idx / PN) vals.

(** [get]: the stored handle at [key.index()] must equal [key]. The
    conversion [usize -> usize] never fails. The result is the reference
    handed out, i.e. the cell it points to. *)
Definition get (m : PagedSlotMap) (key : handle) : option cell :=
  match indices m !! index key with
  | Some stored => if decide (stored = key) then Some (get_value (values m) (index key)) else None
  | None => None
  end.

(** [get_mut]: the same check as [get]. *)
Definition get_mut (m : PagedSlotMap) (key : handle) : option cell :=
  match indices m !! index key with
  | Some stored => if decide (stored = key) then Some (get_value (values m) (index key)) else None
  | None => None
  end.

(** [MapInsert::insert]: [replace] the value behind [get_mut]. *)
Definition map_insert (m : PagedSlotMap) (key : handle) (v : T) : PagedSlotMap * option cell :=
  match get_mut m key with
  | Some old =>
    (mkMap (indices m) (write_value (values m) (index key) v)
       (free_list_head m) (free_list_tail m) (free_list_size m), Some old)
  | None => (m, None)
  end.

(** [push_free_idx]: append [idx] at the tail of the free list. The
    unchecked access of the tail is modelled by [!!!]/[<[..]>]. *)
Definition push_free_idx (m : PagedSlotMap) (idx : nat) : PagedSlotMap :=
  let '(ixs, head) :=
    if 0 <? free_list_size m then
      let t := indices m !!! free_list_tail m in
      (<[free_list_tail m := from_raw_parts idx (generation t)]> (indices m), free_list_head m)
    else (indices m, idx) in
  mkMap ixs (values m) head idx (S (free_list_size m)).

(** [push] *)
Definition push (m : PagedSlotMap) (v : T) : PagedSlotMap * handle :=
  if free_list_size m =? 0 then
    let idx := length (indices m) in
    let vals := if length (values m) * PN <=? idx then values m ++ [new_page] else values m in
    let index := from_index idx in
    (mkMap (indices m ++ [index]) (write_value vals idx v)
       (free_list_head m) (free_list_tail m) (free_list_size m), index)
  else
    let idx := free_list_head m in
    let old := indices m !!! idx in
    let index := from_raw_parts idx (generation (next_generation old)) in
    (mkMap (<[idx := index]> (indices m)) (write_value (values m) idx v)
       (IndexPair.index old) (free_list_tail m) (free_list_size m - 1), index).

(** [remove]: the read-out value ([assume_init_read]) leaves the memory as
    it is. *)
Definition remove (m : PagedSlotMap) (key : handle) : PagedSlotMap * option cell :=
  let idx := index key in
  match indices m !! idx with
  | None => (m, None)
  | Some stored =>
    if decide (stored = key) then
      let stored' := from_raw_parts (if idx =? 0 then 1 else 0) (generation stored) in
      let m1 := mkMap (<[idx := stored']> (indices m)) (values m)
                  (free_list_head m) (free_list_tail m) (free_list_size m) in
      (push_free_idx m1 idx, Some (get_value (values m) idx))
    else (m, None)
  end.

(** [retain]: the loop over the live slots ([enumerate().filter(..)]).
    [f] gets the handle and the value and returns whether to keep it,
    together with the value as it left the [&mut T]. The accumulator is
    [(values, free_list_head, remove_count)]; the result lists the
    rewritten index entries. *)
Fixpoint retain_loop (f : handle -> T -> bool * T) (i : nat) (rest : list handle)
    (vals : list page) (fl_head remove_count : nat)
    : list handle * list page * nat * nat :=
  match rest with
  | [] => ([], vals, fl_head, remove_count)
  | h :: rest' =>
    if i =? index h then
      match get_value vals i with
      | Some v =>
        let '(keep, v') := f h v in
        if keep then
          let '(r, vals', fh', rc') :=
            retain_loop f (S i) rest' (write_value vals i v') fl_head remove_count in
          (h :: r, vals', fh', rc')
        else
          let h' := from_raw_parts fl_head (generation h) in
          let '(r, vals', fh', rc') :=
            retain_loop f (S i) rest' (drop_value vals i) i (S remove_count) in
          (h' :: r, vals', fh', rc')
      | None =>
        (* a live slot always holds a value; not reached on maps built by
           [push]/[remove] *)
        let '(r, vals', fh', rc') := retain_loop f (S i) rest' vals fl_head remove_count in
        (h :: r, vals', fh', rc')
      end
    else
      let '(r, vals', fh', rc') := retain_loop f (S i) rest' vals fl_head remove_count in
      (h :: r, vals', fh', rc')
  end.

Definition retain (m : PagedSlotMap) (f : handle -> T -> bool * T) : PagedSlotMap :=
  let '(ixs, vals, fh, rc) := retain_loop f 0 (indices m) (values m) (len m + 1) 0 in
  let m1 := mkMap ixs vals (free_list_head m) (free_list_tail m) (free_list_size m) in
  if 0 <? rc then
    let m2 := push_free_idx m1 fh in
    mkMap (indices m2) (values m2) (free_list_head m2) (free_list_tail m2)
      (free_list_size m2 + (rc - 1))
  else m1.

(** *** Iterators ([mod iter]) *)

(** [Iter]: the double-ended slice iterator over [indices] (its remaining
    elements), the pages, and the [start]/[end] counters. *)
Record Iter := mkIter {
  it_index : list handle;
  it_values : list page;
  it_start : nat;
  it_end : nat;
}.

Definition iter (m : PagedSlotMap) : Iter := mkIter (indices m) (values m) 0 (len m).

(** [Iter::next] *)
Definition iter_next (it : Iter) : Iter * option (handle * cell) :=
  match it_index it with
  | [] => (it, None)
  | h :: rest =>
    let idx := it_start it in
    let it' := mkIter rest (it_values it) (S idx) (it_end it) in
    if idx =? index h then (it', Some (h, get_value (it_values it) idx)) else (it', None)
  end.

(** [Iter::next_back] *)
Definition iter_next_back (it : Iter) : Iter * option (handle * cell) :=
  match last (it_index it) with
  | None => (it, None)
  | Some h =>
    let idx := it_end it - 1 in
    let it' := mkIter (removelast (it_index it)) (it_values it) (it_start it) idx in
    if idx =? index h then (it', Some (h, get_value (it_values it) idx)) else (it', None)
  end.

(** What a [for] loop (or [collect]) over the iterator sees: the items up
    to the first [None]. Each step consumes one element, so the number of
    remaining elements bounds the loop. *)
Fixpoint collect_go (next : Iter -> Iter * option (handle * cell)) (fuel : nat) (it : Iter)
    : list (handle * cell) :=
  match fuel with
  | 0 => []
  | S fuel' =>
    match next it with
    | (it', Some x) => x :: collect_go next fuel' it'
    | (_, None) => []
    end
  end.

Definition collect (it : Iter) : list (handle * cell) :=
  collect_go iter_next (S (length (it_index it))) it.

(** [iter().rev()] *)
Definition collect_rev (it : Iter) : list (handle * cell) :=
  collect_go iter_next_back (S (length (it_index it))) it.

(** *** Serialization ([mod serde_impl]) *)

(** [Serialize]: the handle array and, per slot, [Some] of the stored
    value where [usize_eq(idx, index.index())] holds, [None] elsewhere. *)
Definition serialize (m : PagedSlotMap) : list handle * list (option T) :=
  (indices m,
   imap (fun idx h => if idx =? index h then get_value (values m) idx else None) (indices m)).

(** [Deserialize]: the loop over [indices.iter_mut().zip(values).enumerate()].
    State: the pages pushed so far, the current page, and
    [(free_list_head, free_list_tail, free_list_size)]. The result lists
    the rewritten index entries; entries beyond the shorter input are
    left as they are, as [zip] stops there. *)
Fixpoint deserialize_loop (i : nat) (ixs : list handle) (ovs : list (option T))
    (pages : list page) (pg : page) (fh ft fs : nat)
    : list handle * list page * page * nat * nat * nat :=
  match ixs, ovs with
  | gen_index :: ixs', value :: ovs' =>
    let idx := index gen_index in
    let offset := idx mod PN in
    let '(pages1, pg1) :=
      if (0 <? idx) && (offset =? 0) then (pages ++ [pg], new_page) else (pages, pg) in
    match (match value with Some v => (if i =? idx then Some v else None) | None => None end) with
    | Some v =>
      let '(r, ps, p, fh', ft', fs') :=
        deserialize_loop (S i) ixs' ovs' pages1 (<[offset := Some v]> pg1) fh ft fs in
      (gen_index :: r, ps, p, fh', ft', fs')
    | None =>
      (* value is None or index not match => free index *)
      let gi := from_raw_parts (if i =? fh then 0 else fh) (generation gen_index) in
      let '(r, ps, p, fh', ft', fs') :=
        deserialize_loop (S i) ixs' ovs' pages1 pg1 idx (if fs =? 0 then idx else ft) (S fs) in
      (gi :: r, ps, p, fh', ft', fs')
    end
  | _, _ => (ixs, pages, pg, fh, ft, fs)
  end.

Definition deserialize (input : list handle * list (option T)) : PagedSlotMap :=
  let '(ixs, ovs) := input in
  let n := length ixs in
  let '(ixs', pages, pg, fh, ft, fs) := deserialize_loop 0 ixs ovs [] new_page n n 0 in
  mkMap ixs' (if 0 <? n then pages ++ [pg] else pages) fh ft fs.

End SlotMap.
End SlotMap.

(** *** The free list, and repeated operations *)

Module SlotMapInv.
Import SlotMap.
Section Inv.
Context {T : Type}.

(** The free list as the code walks it: [n] positions starting at [h],
    each followed by the index field of its entry. *)
Fixpoint free_chain (ixs : list handle) (h n : nat) : list nat :=
  match n with
  | 0 => []
  | S n' => h :: free_chain ixs (index (ixs !!! h)) n'
  end.

Definition chain_of (m : PagedSlotMap (T:=T)) : list nat :=
  free_chain (indices m) (free_list_head m) (free_list_size m).

(** A slot is live iff its index field is its own position. *)
Definition slot_live (ixs : list handle) (i : nat) : Prop :=
  exists h, ixs !! i = Some h /\ index h = i.
Definition slot_dead (ixs : list handle) (i : nat) : Prop :=
  exists h, ixs !! i = Some h /\ index h <> i.

(** The free-list invariant of slotmap.rs: the [free_list_size] positions
    reached from [free_list_head] are distinct, are exactly the dead slots,
    and end at [free_list_tail]. *)
Record free_list_inv (m : PagedSlotMap (T:=T)) : Prop := {
  fl_nodup : NoDup (chain_of m);
  fl_dead : forall i, i ∈ chain_of m <-> slot_dead (indices m) i;
  fl_tail : 0 < free_list_size m -> last (chain_of m) = Some (free_list_tail m);
}.

Definition remove_all (PN : nat) (m : PagedSlotMap (T:=T)) (ks : list handle) : PagedSlotMap :=
  fold_left (fun acc k => fst (remove PN acc k)) ks m.

Fixpoint push_all (PN : nat) (m : PagedSlotMap (T:=T)) (vs : list T)
    : PagedSlotMap * list handle :=
  match vs with
  | [] => (m, [])
  | v :: vs' =>
    let '(m1, h) := push PN m v in
    let '(m2, hs) := push_all PN m1 vs' in
    (m2, h :: hs)
  end.

(** [Extend<T>]: one [push] per item. [FromIterator] first calls
    [reserve], which only changes capacities, then [extend]s a new map. *)
Definition extend (PN : nat) (m : PagedSlotMap (T:=T)) (vs : list T) : PagedSlotMap :=
  fst (push_all PN m vs).
Definition from_iter (PN : nat) (vs : list T) : PagedSlotMap (T:=T) := extend PN new vs.

(** The shape of the pages: [N] cells each, enough of them for every
    slot. *)
Definition pages_wf (PN : nat) (m : PagedSlotMap (T:=T)) : Prop :=
  0 < PN /\ Forall (fun p => length p = PN) (values m) /\
  length (indices m) <= length (values m) * PN.

(** [PartialEq for PagedSlotMap]: same index array and free-list fields,
    and equal values at the live slots. *)
Definition map_eq (PN : nat) (a b : PagedSlotMap (T:=T)) : Prop :=
  indices a = indices b /\ free_list_head a = free_list_head b /\
  free_list_tail a = free_list_tail b /\ free_list_size a = free_list_size b /\
  forall i h, indices a !! i = Some h -> index h = i ->
    get_value PN (values a) i = get_value PN (values b) i.

End Inv.
End SlotMapInv.

(* ================================================================== *)
(** ** SparseSet (sparseset.rs) *)

(** [slice::sort_by] is documented stable. For a comparator that is a total
    preorder its result is the unique stable ordering, computed here by
    insertion sort: each element goes before the first element already
    placed that is strictly greater ([is_less]). *)
Section StableSort.
Context {A : Type} (cmp : A -> A -> comparison).

Fixpoint sort_insert (x : A) (l : list A) : list A :=
  match l with
  | [] => [x]
  | y :: l' => match cmp x y with Lt => x :: y :: l' | _ => y :: sort_insert x l' end
  end.

Definition stable_sort (l : list A) : list A := fold_left (fun acc x => sort_insert x acc) l [].
End StableSort.

Module SparseSet.
Section SparseSet.
Context {T : Type}.

(** [sparse] holds [usize] dense positions (or [usize::MAX]); they are
    [N] so that the sentinel is a computable value. *)
Record SparseSet := mkSet {
  sparse : list N;
  entries : list (handle * T);
}.

Definition new : SparseSet := mkSet [] [].
Definition len (s : SparseSet) : nat := length (entries s).

(** [Vec::get] on [entries] at a [usize] position. *)
Definition entry_at (es : list (handle * T)) (d : N) : option (handle * T) :=
  if (d <? N.of_nat (length es))%N then es !! N.to_nat d else None.

(** [get_sparse_dense_indices]: [usize -> usize] never fails, so the outer
    [Option] is always [Some] and is left out. *)
Definition get_sparse_dense_indices (s : SparseSet) (i : handle) : nat * option N :=
  (index i, sparse s !! index i).

(** [get] *)
Definition get (s : SparseSet) (i : handle) : option T :=
  match snd (get_sparse_dense_indices s i) with
  | None => None
  | Some d =>
    match entry_at (entries s) d with
    | Some (k, v) => if decide (i = k) then Some v else None
    | None => None
    end
  end.

(** [reserve_sparse_index]: [reserve] then [set_len(capacity())]. The
    exposed slots were never written: [junk p] is what position [p]
    holds, and the allocator's capacity exceeds the request by [slack]. *)
Definition reserve_sparse_index (junk : nat -> N) (slack : nat) (sp : list N) (idx : nat)
    : list N :=
  if length sp <=? idx then sp ++ map junk (seq (length sp) (S idx - length sp + slack))
  else sp.

(** [insert] *)
Definition insert (junk : nat -> N) (slack : nat) (s : SparseSet) (i : handle) (v : T)
    : SparseSet * option T :=
  let '(sparse_index, dense_index) := get_sparse_dense_indices s i in
  let append :=
    let sp := reserve_sparse_index junk slack (sparse s) sparse_index in
    match sp !! sparse_index with
    | None => (mkSet sp (entries s), None)
    | Some _ =>
      (mkSet (<[sparse_index := N.of_nat (length (entries s))]> sp) (entries s ++ [(i, v)]), None)
    end in
  match dense_index with
  | Some d =>
    match entry_at (entries s) d with
    | Some (k, old) =>
      if index i =? index k then
        (mkSet (sparse s) (<[N.to_nat d := (k, v)]> (entries s)), Some old)
      else append
    | None => append
    end
  | None => append
  end.

(** [Vec::swap_remove] at a position in range: the last element takes its
    place. *)
Definition swap_remove {A} (l : list A) (d : nat) : list A :=
  match last l with
  | Some x => take (length l - 1) (<[d := x]> l)
  | None => l
  end.

(** [remove] *)
Definition remove (s : SparseSet) (i : handle) : SparseSet * option T :=
  let '(sparse_index, dense_index) := get_sparse_dense_indices s i in
  match dense_index with
  | None => (s, None)
  | Some d =>
    match entry_at (entries s) d with
    | None => (s, None)
    | Some (k, v) =>
      if decide (k <> i) then (s, None) else
      let sp1 :=
        if (d <? N.of_nat (length (entries s) - 1))%N then
          match last (entries s) with
          | None => None
          | Some (lk, _) =>
            match sparse s !! index lk with
            | None => None
            | Some _ => Some (<[index lk := d]> (sparse s))
            end
          end
        else Some (sparse s) in
      match sp1 with
      | None => (s, None)
      | Some sp1 =>
        match sp1 !! sparse_index with
        | None => (mkSet sp1 (entries s), None)
        | Some _ =>
          (mkSet (<[sparse_index := usize_max]> sp1) (swap_remove (entries s) (N.to_nat d)),
           Some v)
        end
      end
    end
  end.

(** The repair loop of [sort_by]: entry [p] writes [p] into its sparse
    slot; [get_mut] out of range skips, as [<[..]>] does. *)
Fixpoint fix_sparse (p : nat) (es : list (handle * T)) (sp : list N) : list N :=
  match es with
  | [] => sp
  | (i, _) :: es' => fix_sparse (S p) es' (<[index i := N.of_nat p]> sp)
  end.

(** [sort_by] *)
Definition sort_by (compare : handle * T -> handle * T -> comparison) (s : SparseSet)
    : SparseSet :=
  let es := stable_sort compare (entries s) in
  mkSet (fix_sparse 0 es (sparse s)) es.

(** [Extend<(I, T)>]: one [insert] per item. The memory each [insert]
    exposes, and the spare capacity then, are given per call by [env].
    [FromIterator] first calls [reserve], which changes capacities only,
    then [extend]s a new set. *)
Fixpoint extend (env : nat -> (nat -> N) * nat) (n : nat) (s : SparseSet) (l : list (handle * T))
    : SparseSet :=
  match l with
  | [] => s
  | (i, v) :: l' =>
    extend env (S n) (fst (insert (fst (env n)) (snd (env n)) s i v)) l'
  end.
Definition from_iter (env : nat -> (nat -> N) * nat) (l : list (handle * T)) : SparseSet :=
  extend env 0 new l.

(** The sparse-set invariant: each entry's sparse slot holds its dense
    position. *)
Definition sparse_wf (s : SparseSet) : Prop :=
  forall p k v, entries s !! p = Some (k, v) -> sparse s !! index k = Some (N.of_nat p).

End SparseSet.
End SparseSet.

(* ================================================================== *)
(** * Proofs *)

(** ** Handle encodings *)

Lemma land_ones_small (a : Z) (n : Z) :
  (0 <= n)%Z -> (0 <= a < 2 ^ n)%Z -> Z.land a (Z.ones n) = a.
Proof.
  intros Hn Ha. rewrite Z.land_ones by lia. apply Z.mod_small. lia.
Qed.

Lemma split_u32 (i g : Z) :
  (0 <= i < 2 ^ 32)%Z -> (0 <= g < 2 ^ 32)%Z ->
  Z.land (i + g * 2 ^ 32) (2 ^ 32 - 1) = i /\
  (Z.shiftr (i + g * 2 ^ 32) 32 mod 2 ^ 32)%Z = g.
Proof.
  intros Hi Hg. split.
  - change (2 ^ 32 - 1)%Z with (Z.ones 32). rewrite Z.land_ones by lia.
    rewrite Z.mod_add by lia. apply Z.mod_small. lia.
  - rewrite Z.shiftr_div_pow2 by lia.
    rewrite Z.div_add by lia. rewrite Z.div_small by lia.
    rewrite Z.add_0_l. apply Z.mod_small. lia.
Qed.

Lemma f64_round_small (z : Z) : (Z.abs z < 2 ^ 53)%Z -> IndexF64.f64_round z = z.
Proof.
  intros H. unfold IndexF64.f64_round. destruct (Z.ltb_spec (Z.abs z) (2 ^ 53)); lia.
Qed.

(** C9: every encoding returns the index and generation it was built from,
    within the range the encoding represents. *)
Theorem genindex_roundtrip :
  (forall (I G : Type) (i : I) (g : G),
     IndexPair.index (IndexPair.from_raw_parts i g) = i /\
     IndexPair.generation (IndexPair.from_raw_parts i g) = g) /\
  (forall i g : Z, (0 <= i < 2 ^ 32)%Z -> (0 <= g < 2 ^ 32)%Z ->
     IndexU64.index (IndexU64.from_raw_parts i g) = i /\
     IndexU64.generation (IndexU64.from_raw_parts i g) = g) /\
  (forall i g : Z, (0 <= i < 2 ^ 32)%Z -> (0 <= g <= 2 ^ 21 - 1)%Z ->
     IndexF64.index (IndexF64.from_raw_parts i g) = i /\
     IndexF64.generation (IndexF64.from_raw_parts i g) = g).
Proof.
  split; [| split].
  - intros I G i g. split; reflexivity.
  - intros i g Hi Hg.
    unfold IndexU64.index, IndexU64.generation, IndexU64.from_raw_parts, IndexU64.u64_wrap,
      IndexU64.u32_max; simpl.
    rewrite Z.shiftl_mul_pow2 by lia.
    rewrite (Z.mod_small (g * 2 ^ 32)) by lia.
    rewrite (Z.mod_small (i + g * 2 ^ 32)) by lia.
    apply split_u32; assumption.
  - intros i g Hi Hg.
    unfold IndexF64.index, IndexF64.generation, IndexF64.from_raw_parts; simpl.
    unfold IndexF64.MAX_SAFE_GENERATION, IndexF64.u32_max.
    change (2 ^ 21 - 1)%Z with (Z.ones 21).
    rewrite land_ones_small by lia.
    rewrite Z.shiftl_mul_pow2 by lia.
    rewrite (Z.mod_small (g * 2 ^ 32)) by lia.
    rewrite (f64_round_small i) by lia.
    rewrite (f64_round_small (g * 2 ^ 32)) by lia.
    rewrite (f64_round_small (i + g * 2 ^ 32)) by lia.
    unfold IndexF64.f64_to_u64.
    destruct (Z.ltb_spec (i + g * 2 ^ 32) 0); [lia |].
    destruct (Z.ltb_spec (2 ^ 64 - 1) (i + g * 2 ^ 32)); [lia |].
    apply split_u32; lia.
Qed.

Lemma genindex_roundtrip_witness :
  (IndexU64.index (IndexU64.from_raw_parts 123 456) = 123%Z /\
   IndexU64.generation (IndexU64.from_raw_parts 123 456) = 456%Z) /\
  (IndexF64.index (IndexF64.from_raw_parts 123 456) = 123%Z /\
   IndexF64.generation (IndexF64.from_raw_parts 123 456) = 456%Z).
Proof.
  split.
  - apply (proj1 (proj2 genindex_roundtrip)); lia.
  - apply (proj2 (proj2 genindex_roundtrip)); lia.
Defined.

(** ** PagedSlotMap: checked access *)

Module SlotMapProofs.
Import SlotMap SlotMapInv.

(** C1: [get], [get_mut] and [remove] succeed exactly when the stored
    handle at [k.index()] is [k] (index and generation); otherwise -- index
    out of range, stale generation, or a dead slot, whose index field is
    not its own position -- all three return [None], and a failed
    [remove] leaves the map as it was. *)
Theorem slotmap_checked_access {T : Type} (PN : nat) (m : PagedSlotMap (T:=T)) (k : handle) :
  (is_Some (get PN m k) <-> indices m !! index k = Some k) /\
  (is_Some (get_mut PN m k) <-> indices m !! index k = Some k) /\
  (is_Some (snd (remove PN m k)) <-> indices m !! index k = Some k) /\
  (snd (remove PN m k) = None -> fst (remove PN m k) = m) /\
  ((length (indices m) <= index k \/
    (exists h, indices m !! index k = Some h /\ generation h <> generation k) \/
    (exists h, indices m !! index k = Some h /\ index h <> index k)) ->
   get PN m k = None /\ get_mut PN m k = None /\ snd (remove PN m k) = None).
Proof.
  unfold get, get_mut, remove.
  destruct (indices m !! index k) as [h |] eqn:E.
  - destruct (decide (h = k)) as [-> | Hne].
    + split; [split; eauto |]. split; [split; eauto |].
      split; [simpl; split; eauto |]. split; [discriminate |].
      intros [Hlen | [[h [Hh Hg]] | [h [Hh Hi]]]].
      * apply lookup_lt_Some in E. lia.
      * simplify_eq; try contradiction.
      * simplify_eq; try contradiction.
    + simpl. split; [split; [intros []; discriminate | congruence] |].
      split; [split; [intros []; discriminate | congruence] |].
      split; [split; [intros []; discriminate | congruence] |].
      split; auto.
  - simpl. split; [split; [intros []; discriminate | congruence] |].
    split; [split; [intros []; discriminate | congruence] |].
    split; [split; [intros []; discriminate | congruence] |].
    split; auto.
Qed.

(** ** PagedSlotMap: the free list *)

Section FreeList.
Context {T : Type} (PN : nat).
Implicit Types (m : PagedSlotMap (T:=T)) (ixs : list handle).

Lemma length_free_chain ixs h n : length (free_chain ixs h n) = n.
Proof. revert h; induction n as [|n IH]; intros h; simpl; auto. Qed.

Lemma last_elem_of {A} (l : list A) x : last l = Some x -> x ∈ l.
Proof. intros [l' ->]%last_Some. apply elem_of_app. right. by left. Qed.

(** Rewriting an entry the walk does not visit leaves the walk as it is. *)
Lemma free_chain_insert_notin ixs h n j x :
  j ∉ free_chain ixs h n -> free_chain (<[j:=x]> ixs) h n = free_chain ixs h n.
Proof.
  revert h; induction n as [|n IH]; intros h Hj; simpl; [done |].
  apply not_elem_of_cons in Hj as [Hjh Hj].
  rewrite list_lookup_total_insert_ne by congruence. f_equal. by apply IH.
Qed.

(** Pointing the last visited entry at [index x] extends the walk by one. *)
Lemma free_chain_snoc ixs h n t x :
  last (free_chain ixs h n) = Some t -> NoDup (free_chain ixs h n) -> t < length ixs ->
  free_chain (<[t:=x]> ixs) h (S n) = free_chain ixs h n ++ [index x].
Proof.
  revert h; induction n as [|n IH]; intros h Hl Hnd Ht; [discriminate |].
  destruct n as [|n].
  - simpl in Hl |- *. injection Hl as <-.
    rewrite list_lookup_total_insert_eq by done. reflexivity.
  - change (free_chain ixs h (S (S n)))
      with (h :: free_chain ixs (index (ixs !!! h)) (S n)) in Hl, Hnd |- *.
    apply NoDup_cons in Hnd as [Hh Hnd].
    change (last (free_chain ixs (index (ixs !!! h)) (S n)) = Some t) in Hl.
    assert (h <> t) as Hht.
    { intros ->. apply Hh. by apply last_elem_of. }
    change (free_chain (<[t:=x]> ixs) h (S (S (S n))))
      with (h :: free_chain (<[t:=x]> ixs) (index (<[t:=x]> ixs !!! h)) (S (S n))).
    rewrite list_lookup_total_insert_ne by congruence.
    rewrite IH by done. reflexivity.
Qed.

Lemma slot_dead_in_range ixs i : slot_dead ixs i -> i < length ixs.
Proof. intros (h & Hh & _). by eapply lookup_lt_Some. Qed.

Lemma slot_live_not_dead ixs i : slot_live ixs i -> ~ slot_dead ixs i.
Proof. intros (h & Hh & Hi) (h' & Hh' & Hi'). simplify_eq. Qed.

Lemma slot_dead_insert_ne ixs i j x :
  i <> j -> slot_dead (<[j:=x]> ixs) i <-> slot_dead ixs i.
Proof. intros Hij. unfold slot_dead. by rewrite list_lookup_insert_ne by congruence. Qed.

Lemma slot_dead_insert_eq ixs j x :
  j < length ixs -> (slot_dead (<[j:=x]> ixs) j <-> index x <> j).
Proof.
  intros Hj. unfold slot_dead. rewrite list_lookup_insert_eq by done.
  split; [intros (h & [= <-] & Hh); done | intros Hx; eauto].
Qed.

Lemma elem_of_singleton_list (i j : nat) : i ∈ [j] <-> i = j.
Proof. rewrite elem_of_cons. split; [intros [-> | Hin]; [done | inversion Hin] | auto]. Qed.

(** Removing a live slot appends its position to the free list, keeps the
    invariant, and leaves the other live slots and the storage alone. *)
Lemma remove_live_free_list m k :
  free_list_inv m -> indices m !! index k = Some k ->
  free_list_inv (fst (remove PN m k)) /\
  chain_of (fst (remove PN m k)) = chain_of m ++ [index k] /\
  length (indices (fst (remove PN m k))) = length (indices m) /\
  values (fst (remove PN m k)) = values m /\
  (forall j h, j <> index k -> indices m !! j = Some h -> index h = j ->
     indices (fst (remove PN m k)) !! j = Some h).
Proof.
  intros [Hnd Hdead Htail] Hk.
  destruct m as [ixs vals fh ft fs]; unfold chain_of in *; simpl in *.
  unfold remove; simpl. rewrite Hk.
  destruct (decide (k = k)) as [_ | []]; [| done].
  set (idx := index k) in *.
  set (st := from_raw_parts (if idx =? 0 then 1 else 0) (generation k) : handle).
  assert (Hidx : idx < length ixs) by (by eapply lookup_lt_Some).
  assert (Hst : index st <> idx)
    by (subst st; unfold IndexPair.index; simpl; destruct (Nat.eqb_spec idx 0); lia).
  assert (Hlive : slot_live ixs idx) by (exists k; done).
  assert (Hnin : idx ∉ free_chain ixs fh fs)
    by (intros Hin%Hdead; by eapply slot_live_not_dead).
  assert (Hc1 : free_chain (<[idx:=st]> ixs) fh fs = free_chain ixs fh fs)
    by (by apply free_chain_insert_notin).
  unfold push_free_idx; simpl.
  destruct (Nat.ltb_spec 0 fs) as [Hfs | Hfs].
  - (* the free list was not empty: the old tail points at [idx] *)
    assert (Hft : ft ∈ free_chain ixs fh fs) by (apply last_elem_of; auto).
    assert (Hftd : slot_dead ixs ft) by (by apply Hdead).
    assert (Hft_idx : ft <> idx) by (intros ->; by eapply slot_live_not_dead).
    set (x := from_raw_parts idx (generation ((<[idx:=st]> ixs) !!! ft)) : handle).
    assert (Hch : free_chain (<[ft:=x]> (<[idx:=st]> ixs)) fh (S fs) = free_chain ixs fh fs ++ [idx]).
    { rewrite free_chain_snoc; rewrite ?Hc1; auto.
      rewrite length_insert. by apply slot_dead_in_range. }
    unfold chain_of; cbn [indices values free_list_head free_list_tail free_list_size fst snd]. rewrite Hch. split; [| split; [done | split; [by rewrite !length_insert | split; [done |]]]].
    + split; unfold chain_of; cbn [indices values free_list_head free_list_tail free_list_size fst snd].
      * rewrite Hch. apply NoDup_app. split; [done | split; [| apply NoDup_singleton]].
        intros i Hi ->%elem_of_singleton_list. done.
      * intros i. rewrite Hch, elem_of_app, elem_of_singleton_list.
        destruct (decide (i = ft)) as [-> | Hift].
        { split; [intros _ | auto].
          apply slot_dead_insert_eq; [rewrite length_insert; by apply slot_dead_in_range |].
          subst x. unfold IndexPair.index; simpl. congruence. }
        rewrite slot_dead_insert_ne by done.
        destruct (decide (i = idx)) as [-> | Hiidx].
        { split; [intros _ | auto]. by apply slot_dead_insert_eq. }
        rewrite slot_dead_insert_ne by done. rewrite <- Hdead. naive_solver.
      * intros _. rewrite Hch. apply last_snoc.
    + intros j h Hj Hh Hjh.
      assert (j <> ft) by (intros ->; eapply slot_live_not_dead; [exists h; eauto | done]).
      rewrite !list_lookup_insert_ne by congruence. done.
  - (* the free list was empty: [idx] is the whole list *)
    assert (fs = 0) as -> by lia. unfold chain_of; cbn [indices values free_list_head free_list_tail free_list_size fst snd].
    split; [| split; [done | split; [by rewrite length_insert | split; [done |]]]].
    + split; unfold chain_of; cbn [indices values free_list_head free_list_tail free_list_size fst snd free_chain].
      * apply NoDup_singleton.
      * intros i. rewrite elem_of_singleton_list.
        destruct (decide (i = idx)) as [-> | Hiidx].
        { split; [intros _ | auto]. by apply slot_dead_insert_eq. }
        rewrite slot_dead_insert_ne by done. rewrite <- Hdead. simpl.
        split; [done | intros Hin; inversion Hin].
      * intros _. reflexivity.
    + intros j h Hj Hh Hjh. rewrite list_lookup_insert_ne by congruence. done.
Qed.

Lemma length_write_value (vals : list (list (option T))) i v :
  length (write_value PN vals i v) = length vals.
Proof. apply length_alter. Qed.

(** [push] on a non-empty free list takes the head position, and the free
    list loses its first element. *)
Lemma push_free_list m v :
  free_list_inv m -> 0 < free_list_size m ->
  index (snd (push PN m v)) = free_list_head m /\
  chain_of (fst (push PN m v)) = tail (chain_of m) /\
  free_list_inv (fst (push PN m v)) /\
  length (indices (fst (push PN m v))) = length (indices m) /\
  length (values (fst (push PN m v))) = length (values m).
Proof.
  intros [Hnd Hdead Htail] Hfs.
  destruct m as [ixs vals fh ft [|n]]; unfold chain_of in *; simpl in *; [lia |].
  unfold push; cbn [free_list_size free_list_head free_list_tail indices values fst snd Nat.eqb Nat.sub].
  rewrite Nat.sub_0_r.
  set (nx := index (ixs !!! fh)) in *.
  apply NoDup_cons in Hnd as [Hfh Hnd].
  assert (Hc : forall h', free_chain (<[fh:=h']> ixs) nx n = free_chain ixs nx n)
    by (intros; by apply free_chain_insert_notin).
  assert (Hfhd : slot_dead ixs fh) by (apply Hdead; by left).
  assert (Hfhl : fh < length ixs) by (by apply slot_dead_in_range).
  unfold chain_of; cbn [indices values free_list_head free_list_tail free_list_size fst snd].
  rewrite Hc. split; [reflexivity | split; [reflexivity | split]].
  - split; unfold chain_of; cbn [indices values free_list_head free_list_tail free_list_size].
    + by rewrite Hc.
    + intros i. rewrite Hc. destruct (decide (i = fh)) as [-> | Hi].
      * split; [done |]. intros (h & Hh & Hne).
        rewrite list_lookup_insert_eq in Hh by done. injection Hh as <-. done.
      * rewrite slot_dead_insert_ne by done. rewrite <- Hdead, elem_of_cons. naive_solver.
    + intros Hn. rewrite Hc. destruct n as [|n]; [lia |].
      rewrite <- Htail by lia. simpl. reflexivity.
  - split; [apply length_insert | apply length_write_value].
Qed.

(** [push] on an empty free list appends a live slot. *)
Lemma push_append_free_list m v :
  free_list_inv m -> free_list_size m = 0 ->
  free_list_inv (fst (push PN m v)) /\ index (snd (push PN m v)) = length (indices m).
Proof.
  intros [Hnd Hdead Htail] Hfs.
  destruct m as [ixs vals fh ft fs]; unfold chain_of in *; simpl in *; subst fs.
  unfold push; cbn [free_list_size free_list_head free_list_tail indices values fst snd Nat.eqb].
  split; [| reflexivity].
  split; unfold chain_of; cbn [indices values free_list_head free_list_tail free_list_size free_chain].
  - constructor.
  - intros i. split; [intros Hi; inversion Hi |]. intros (h & Hh & Hne).
    destruct (decide (i < length ixs)) as [Hlt | Hge].
    + rewrite lookup_app_l in Hh by done.
      assert (Hd : slot_dead ixs i) by (exists h; done).
      apply Hdead in Hd. inversion Hd.
    + rewrite lookup_app_r in Hh by lia.
      destruct (i - length ixs) as [|j] eqn:E; simpl in Hh; [| by rewrite lookup_nil in Hh].
      injection Hh as <-. unfold from_index, IndexPair.index in Hne; simpl in Hne. lia.
  - intros Hlt. lia.
Qed.

(** [push] keeps the free-list invariant. *)
Lemma push_free_list_inv m v : free_list_inv m -> free_list_inv (fst (push PN m v)).
Proof.
  intros Hinv. destruct (decide (free_list_size m = 0)) as [H0 | H0].
  - by apply push_append_free_list.
  - apply push_free_list; [done | lia].
Qed.

Lemma push_all_free_list_inv m vs : free_list_inv m -> free_list_inv (fst (push_all PN m vs)).
Proof.
  revert m; induction vs as [|v vs IH]; intros m Hm; simpl; [done |].
  destruct (push PN m v) as [m1 h] eqn:E1.
  destruct (push_all PN m1 vs) as [m2 hs] eqn:E2. simpl.
  replace m2 with (fst (push_all PN m1 vs)) by (by rewrite E2).
  apply IH. replace m1 with (fst (push PN m v)) by (by rewrite E1).
  by apply push_free_list_inv.
Qed.

Lemma new_free_list_inv : free_list_inv (@new T).
Proof.
  split; unfold chain_of; simpl.
  - constructor.
  - intros i. split; [intros Hi; inversion Hi |]. intros (h & Hh & _). by rewrite lookup_nil in Hh.
  - lia.
Qed.

Lemma remove_all_free_list m ks :
  free_list_inv m -> Forall (fun k => indices m !! index k = Some k) ks -> NoDup (map index ks) ->
  free_list_inv (remove_all PN m ks) /\
  chain_of (remove_all PN m ks) = chain_of m ++ map index ks /\
  length (indices (remove_all PN m ks)) = length (indices m) /\
  values (remove_all PN m ks) = values m.
Proof.
  unfold remove_all.
  revert m; induction ks as [|k ks IH]; intros m Hm Hks Hnd; simpl.
  - by rewrite app_nil_r.
  - apply Forall_cons in Hks as [Hk Hks]. apply NoDup_cons in Hnd as [Hnin Hnd].
    destruct (remove_live_free_list m k Hm Hk) as (Hm1 & Hc1 & Hl1 & Hv1 & Hlive1).
    destruct (IH (fst (remove PN m k)) Hm1) as (Hinv & Hc & Hl & Hv); [| done |].
    + apply Forall_forall. intros k' Hk'. apply Hlive1.
      * intros Heq. apply Hnin. rewrite <- Heq. apply list_elem_of_In, in_map, list_elem_of_In; done.
      * by eapply Forall_forall in Hks.
      * reflexivity.
    + split; [done |]. rewrite Hc, Hc1, <- app_assoc. split; [done |]. split; congruence.
Qed.

Lemma chain_of_cons m n :
  free_list_size m = S n ->
  chain_of m = free_list_head m :: free_chain (indices m) (index (indices m !!! free_list_head m)) n.
Proof. intros H. unfold chain_of. rewrite H. reflexivity. Qed.

Lemma push_all_reuse m vs :
  free_list_inv m -> length vs <= free_list_size m ->
  map index (snd (push_all PN m vs)) = take (length vs) (chain_of m) /\
  length (indices (fst (push_all PN m vs))) = length (indices m) /\
  length (values (fst (push_all PN m vs))) = length (values m).
Proof.
  revert m; induction vs as [|v vs IH]; intros m Hm Hlen; simpl in *; [done |].
  destruct (push_free_list m v Hm ltac:(lia)) as (Hidx & Hc & Hm1 & Hl1 & Hv1).
  destruct (push PN m v) as [m1 h] eqn:E1. simpl in *.
  assert (Hs1 : free_list_size m1 = free_list_size m - 1).
  { rewrite <- (length_free_chain (indices m1) (free_list_head m1) (free_list_size m1)).
    change (length (chain_of m1) = free_list_size m - 1).
    rewrite Hc, length_tl. unfold chain_of. by rewrite length_free_chain. }
  destruct (IH m1 Hm1 ltac:(lia)) as (Hmap & Hl & Hv).
  destruct (push_all PN m1 vs) as [m2 hs] eqn:E2. simpl in *.
  destruct (free_list_size m) as [|n] eqn:Hn; [lia |].
  rewrite (chain_of_cons m n Hn) in Hc |- *. simpl in Hc.
  rewrite Hidx, Hmap, Hc. split; [reflexivity | split; congruence].
Qed.

Lemma clear_free_list_inv m : free_list_inv (clear m).
Proof.
  split; unfold chain_of; simpl.
  - constructor.
  - intros i. split; [intros Hi; inversion Hi |]. intros (h & Hh & _). by rewrite lookup_nil in Hh.
  - lia.
Qed.

End FreeList.

(** C3 (amended): removing the distinct live handles [ks] and then pushing
    [length ks] values reuses, in first-in first-out order, the slots that
    were already free and then the removed positions in removal order; no
    index entry and no page is added. When the free list was empty, the
    pushes return exactly the removed positions, oldest first. *)
Theorem slotmap_remove_push_reuse {T : Type} (PN : nat) (m : PagedSlotMap (T:=T))
    (ks : list handle) (vs : list T) :
  free_list_inv m ->
  Forall (fun k => indices m !! index k = Some k) ks ->
  NoDup (map index ks) ->
  length vs = length ks ->
  map index (snd (push_all PN (remove_all PN m ks) vs)) =
    take (length ks) (chain_of m ++ map index ks) /\
  (free_list_size m = 0 -> map index (snd (push_all PN (remove_all PN m ks) vs)) = map index ks) /\
  length (indices (fst (push_all PN (remove_all PN m ks) vs))) = length (indices m) /\
  length (values (fst (push_all PN (remove_all PN m ks) vs))) = length (values m).
Proof.
  intros Hm Hks Hnd Hlen.
  destruct (remove_all_free_list PN m ks Hm Hks Hnd) as (Hinv & Hc & Hl & Hv).
  assert (Hsz : free_list_size (remove_all PN m ks) = free_list_size m + length ks).
  { rewrite <- (length_free_chain (indices (remove_all PN m ks)) (free_list_head (remove_all PN m ks))
                  (free_list_size (remove_all PN m ks))).
    change (length (chain_of (remove_all PN m ks)) = free_list_size m + length ks).
    rewrite Hc, length_app, length_map. unfold chain_of. by rewrite length_free_chain. }
  destruct (push_all_reuse PN (remove_all PN m ks) vs Hinv ltac:(lia)) as (Hmap & Hl' & Hv').
  rewrite Hmap, Hc, Hlen. split; [reflexivity |]. split; [| split; [congruence | by rewrite Hv', Hv]].
  intros H0. unfold chain_of. rewrite H0. simpl.
  rewrite <- (length_map index ks). apply firstn_all.
Qed.

(** C3: a concrete run of the theorem: three pushes, slot 1 freed, then
    slots 2 and 0 removed and two values pushed; the pushes take slots 1
    and 2. *)
Lemma slotmap_remove_push_reuse_witness :
  let m := fst (remove 2 (fst (push_all 2 new [10; 11; 12])) (from_index 1)) in
  free_list_inv m /\
  Forall (fun k => indices m !! index k = Some k) [from_index 2; from_index 0] /\
  NoDup (map index [from_index 2; from_index 0]) /\
  map index (snd (push_all 2 (remove_all 2 m [from_index 2; from_index 0]) [20; 21])) =
    take 2 (chain_of m ++ map index [from_index 2; from_index 0]) /\
  take 2 (chain_of m ++ map index [from_index 2; from_index 0]) = [1; 2].
Proof.
  intros m.
  assert (Hm : free_list_inv m).
  { apply remove_live_free_list; [apply push_all_free_list_inv, new_free_list_inv | vm_compute; reflexivity]. }
  assert (Hks : Forall (fun k => indices m !! index k = Some k) [from_index 2; from_index 0]).
  { vm_compute. repeat constructor. }
  assert (Hnd : NoDup (map index [from_index 2; from_index 0])).
  { apply (bool_decide_unpack _). vm_compute. exact I. }
  split; [done |]. split; [done |]. split; [done |]. split.
  - apply (slotmap_remove_push_reuse 2 m [from_index 2; from_index 0] [20; 21] Hm Hks Hnd).
    reflexivity.
  - vm_compute. reflexivity.
Defined.

(** C3, as stated, fails when the map already has a free slot: with slot 0
    free and [len] = 1, removing the live slot 1 and pushing one value
    reuses slot 0, not the freed slot 1. *)
Lemma slotmap_remove_push_reuse_counterexample :
  let m := fst (remove 2 (fst (push_all 2 new [10; 11])) (from_index 0)) in
  indices m !! 1 = Some (from_index 1) /\ 1 <= len m /\
  map index (snd (push_all 2 (remove_all 2 m [from_index 1]) [12])) = [0] /\
  map index (snd (push_all 2 (remove_all 2 m [from_index 1]) [12])) <> [index (from_index 1)].
Proof. vm_compute. repeat split; [lia | discriminate]. Qed.

(** C2 ([retain] breaks the invariant): three pushes on an empty map, then
    [retain] dropping every value. The walk from [free_list_head] visits
    2, 1, 0 while [free_list_tail] is 2: the tail is not the last slot of
    the list. The next [push] reuses slot 2; removing that handle appends
    slot 2 after the stale tail 2, so the removed handle stays valid. *)
Theorem slotmap_retain_breaks_free_list :
  let m := fst (push_all 2 new [10; 11; 12]) in
  let r := retain 2 m (fun _ v => (false, v)) in
  free_list_inv m /\
  chain_of r = [2; 1; 0] /\ free_list_tail r = 2 /\
  ~ free_list_inv r /\
  snd (push 2 r 20) = from_raw_parts 2 2%N /\
  snd (remove 2 (fst (push 2 r 20)) (from_raw_parts 2 2%N)) = Some (Some 20) /\
  get 2 (fst (remove 2 (fst (push 2 r 20)) (from_raw_parts 2 2%N))) (from_raw_parts 2 2%N)
    = Some (Some 20).
Proof.
  intros m r.
  split; [apply push_all_free_list_inv, new_free_list_inv |].
  split; [vm_compute; reflexivity |].
  split; [vm_compute; reflexivity |].
  split; [| vm_compute; repeat split].
  intros [_ _ Ht]. specialize (Ht ltac:(vm_compute; lia)). vm_compute in Ht. discriminate.
Qed.

(** C4 ([Iter] stops at a dead slot): three pushes, then slot 1 removed.
    Slot 2 is live, but [iter()] ends after slot 0 (its [next] returns
    [None] at the dead slot 1), and [iter().rev()] yields nothing: its
    [end] starts at [len()] = 2, so the last entry is compared with
    position 1. *)
Theorem slotmap_iter_stops_at_dead_slot :
  let m := fst (remove 2 (fst (push_all 2 new [10; 11; 12])) (from_index 1)) in
  free_list_inv m /\
  get 2 m (from_index 0) = Some (Some 10) /\
  get 2 m (from_index 2) = Some (Some 12) /\
  collect 2 (iter m) = [(from_index 0, Some 10)] /\
  collect_rev 2 (iter m) = [].
Proof.
  intros m.
  split; [apply remove_live_free_list;
          [apply push_all_free_list_inv, new_free_list_inv | vm_compute; reflexivity] |].
  vm_compute. repeat split.
Qed.

(** C5 ([deserialize] rebuilds a broken free list): three pushes, then
    slot 0 removed (its index field becomes 1). [serialize] gives [None]
    exactly at slot 0, but [deserialize] takes the dead entry's stored
    index 1, not its position 0, as the free-list head: slot 1 is live.
    The result is not equal to the original, breaks the invariant, and
    its next [push] overwrites the live slot 1, after which its handle no
    longer resolves. *)
Theorem slotmap_deserialize_wrong_head :
  let m := fst (remove 2 (fst (push_all 2 new [10; 11; 12])) (from_index 0)) in
  let d := deserialize 2 (serialize 2 m) in
  free_list_inv m /\
  snd (serialize 2 m) = [None; Some 11; Some 12] /\
  chain_of m = [0] /\
  chain_of d = [1] /\
  ~ free_list_inv d /\
  ~ map_eq 2 d m /\
  get 2 d (from_index 1) = Some (Some 11) /\
  snd (push 2 d 13) = from_raw_parts 1 2%N /\
  get 2 (fst (push 2 d 13)) (from_index 1) = None.
Proof.
  intros m d.
  split; [apply remove_live_free_list;
          [apply push_all_free_list_inv, new_free_list_inv | vm_compute; reflexivity] |].
  split; [vm_compute; reflexivity |].
  split; [vm_compute; reflexivity |].
  split; [vm_compute; reflexivity |].
  split.
  { intros [_ Hd _]. destruct (proj1 (Hd 1)) as (h & Hh & Hne).
    - vm_compute. constructor.
    - vm_compute in Hh. injection Hh as <-. vm_compute in Hne. lia. }
  split.
  { intros (Hi & _). vm_compute in Hi. discriminate. }
  vm_compute. repeat split.
Qed.

(** C6: the page-size-2 scenario. Five pushes return the handles
    [from_index 0 .. from_index 4]; after removing index 1 its handle
    resolves to nothing and [len] is 4; the next push returns index 1 with
    generation 1 + 1; [iter()] then yields the five live entries in slot
    order. *)
Theorem slotmap_page2_scenario :
  let r1 := push_all 2 new [0; 1; 2; 3; 4] in
  let m2 := fst (remove 2 (fst r1) (from_index 1)) in
  let r3 := push 2 m2 5 in
  snd r1 = map from_index [0; 1; 2; 3; 4] /\
  map generation (snd r1) = replicate 5 (generation (from_index 0)) /\
  get 2 m2 (from_index 1) = None /\
  len m2 = 4 /\
  index (snd r3) = 1 /\ generation (snd r3) = (generation (from_index 1) + 1)%N /\
  collect 2 (iter (fst r3)) =
    [(from_index 0, Some 0); (snd r3, Some 5); (from_index 2, Some 2);
     (from_index 3, Some 3); (from_index 4, Some 4)].
Proof. vm_compute. repeat split. Qed.

End SlotMapProofs.

(** ** SparseSet *)

Module SparseSetProofs.
Import SparseSet.

Section Helpers.
Context {T : Type}.
Implicit Types (s : SparseSet (T:=T)).

Lemma entry_at_of_nat (es : list (handle * T)) p :
  entry_at es (N.of_nat p) = es !! p.
Proof.
  unfold entry_at. destruct (N.ltb_spec (N.of_nat p) (N.of_nat (length es))) as [H | H].
  - by rewrite Nat2N.id.
  - symmetry. apply lookup_ge_None_2. lia.
Qed.

Lemma entry_at_Some (es : list (handle * T)) d e :
  entry_at es d = Some e -> es !! N.to_nat d = Some e.
Proof. unfold entry_at. by destruct (N.ltb _ _). Qed.

(** Under [sparse_wf] two entries with the same sparse index are the same
    entry. *)
Lemma sparse_wf_inj s p q k v k' v' :
  sparse_wf s -> entries s !! p = Some (k, v) -> entries s !! q = Some (k', v') ->
  index k = index k' -> p = q.
Proof.
  intros Hwf Hp Hq Hi. apply Hwf in Hp, Hq. rewrite Hi, Hq in Hp.
  injection Hp. lia.
Qed.

Lemma sparse_wf_in_range s p k v :
  sparse_wf s -> entries s !! p = Some (k, v) -> index k < length (sparse s).
Proof. intros Hwf Hp. apply Hwf in Hp. by apply lookup_lt_Some in Hp. Qed.

Lemma reserve_sparse_index_spec junk slack (sp : list N) idx :
  idx < length (reserve_sparse_index junk slack sp idx) /\
  length sp <= length (reserve_sparse_index junk slack sp idx) /\
  forall j, j < length sp -> reserve_sparse_index junk slack sp idx !! j = sp !! j.
Proof.
  unfold reserve_sparse_index. destruct (Nat.leb_spec (length sp) idx) as [H | H].
  - rewrite length_app, length_map, length_seq. split; [lia | split; [lia |]].
    intros j Hj. by apply lookup_app_l.
  - split; [lia | split; [lia | done]].
Qed.

(** [insert] of a handle whose index no entry has appends it. *)
Lemma insert_absent junk slack s (i : handle) (v : T) :
  (forall p k w, entries s !! p = Some (k, w) -> index k <> index i) ->
  entries (fst (SparseSet.insert junk slack s i v)) = entries s ++ [(i, v)] /\
  snd (SparseSet.insert junk slack s i v) = None /\
  sparse (fst (SparseSet.insert junk slack s i v)) !! index i = Some (N.of_nat (length (entries s))) /\
  length (sparse s) <= length (sparse (fst (SparseSet.insert junk slack s i v))) /\
  index i < length (sparse (fst (SparseSet.insert junk slack s i v))) /\
  (forall j, j <> index i -> j < length (sparse s) ->
     sparse (fst (SparseSet.insert junk slack s i v)) !! j = sparse s !! j).
Proof.
  intros Habs.
  destruct (reserve_sparse_index_spec junk slack (sparse s) (index i)) as (Hlt & Hle & Hkeep).
  assert (Happ : SparseSet.insert junk slack s i v =
    (mkSet (<[index i := N.of_nat (length (entries s))]> (reserve_sparse_index junk slack (sparse s) (index i)))
       (entries s ++ [(i, v)]), None)).
  { unfold SparseSet.insert, get_sparse_dense_indices. cbn [fst snd].
    destruct (lookup_lt_is_Some_2 _ _ Hlt) as [x Hx].
    destruct (sparse s !! index i) as [d |];
      [destruct (entry_at (entries s) d) as [[k old] |] eqn:He;
       [apply entry_at_Some, Habs in He;
        destruct (Nat.eqb_spec (index i) (index k)) as [E | _]; [congruence |] |] |];
      cbv zeta; by rewrite Hx. }
  rewrite Happ; cbn [fst snd entries sparse].
  split; [done |]. split; [done |].
  split; [by apply list_lookup_insert_eq |].
  rewrite length_insert. split; [done |]. split; [done |].
  intros j Hj Hjl. rewrite list_lookup_insert_ne by congruence. by apply Hkeep.
Qed.

(** [remove] of a live entry that is not the last one: the general
    shape of the result. *)
Lemma remove_swap s (i : handle) (v : T) d lk lv :
  sparse_wf s -> entries s !! d = Some (i, v) -> S d < length (entries s) ->
  last (entries s) = Some (lk, lv) ->
  remove s i =
    (mkSet (<[index i := usize_max]> (<[index lk := N.of_nat d]> (sparse s)))
       (swap_remove (entries s) d), Some v) /\
  index lk <> index i.
Proof.
  intros Hwf Hd Hlt Hlast.
  assert (Hlast' : entries s !! (length (entries s) - 1) = Some (lk, lv)).
  { rewrite last_lookup in Hlast. by replace (length (entries s) - 1) with (pred (length (entries s))) by lia. }
  assert (Hne : index lk <> index i).
  { intros E. pose proof (sparse_wf_inj s _ _ _ _ _ _ Hwf Hd Hlast' (eq_sym E)). lia. }
  split; [| done].
  pose proof (Hwf _ _ _ Hd) as Hsi. pose proof (Hwf _ _ _ Hlast') as Hslk.
  unfold remove, get_sparse_dense_indices. cbn [fst snd]. rewrite Hsi, entry_at_of_nat, Hd.
  destruct (decide (i <> i)) as [[] |]; [done |].
  destruct (N.ltb_spec (N.of_nat d) (N.of_nat (length (entries s) - 1))) as [_ | H]; [| lia].
  rewrite Hlast, Hslk.
  rewrite list_lookup_insert_ne by done. rewrite Hsi.
  unfold swap_remove. rewrite Hlast. by rewrite Nat2N.id.
Qed.

Lemma swap_remove_spec {A} (l : list A) d x :
  S d < length l -> last l = Some x ->
  length (swap_remove l d) = length l - 1 /\
  swap_remove l d !! d = Some x /\
  (forall p, p <> d -> p < length l - 1 -> swap_remove l d !! p = l !! p).
Proof.
  intros Hlt Hl. unfold swap_remove. rewrite Hl.
  split; [rewrite length_take, length_insert; lia |].
  split.
  - rewrite lookup_take_lt by lia. apply list_lookup_insert_eq. lia.
  - intros p Hp Hpl. rewrite lookup_take_lt by lia. by apply list_lookup_insert_ne.
Qed.

End Helpers.

(** C7: removing a live entry at dense position [d], not the last one, of
    a well-formed sparse set of [n] entries leaves [n - 1] entries; the
    former last entry now sits at [d] and its sparse slot holds [d]; the
    other entries keep their positions; the removed handle's sparse slot
    holds [usize::MAX]. For instance, inserting raw indices 5, 0, 4 into
    an empty set (whatever the reserved memory holds) gives dense order
    [5; 0; 4] with [sparse[0] = 1], [sparse[4] = 2], [sparse[5] = 0], and
    removing index 0 then gives dense order [5; 4] with [sparse[4] = 1]
    and [sparse[0] = usize::MAX]. *)
Theorem sparseset_swap_remove :
  (forall (T : Type) (s : SparseSet (T:=T)) (i : handle) (v : T) (d : nat) (lk : handle) (lv : T),
     sparse_wf s -> entries s !! d = Some (i, v) -> S d < length (entries s) ->
     last (entries s) = Some (lk, lv) ->
     snd (remove s i) = Some v /\
     length (entries (fst (remove s i))) = length (entries s) - 1 /\
     entries (fst (remove s i)) !! d = Some (lk, lv) /\
     (forall p, p <> d -> p < length (entries s) - 1 ->
        entries (fst (remove s i)) !! p = entries s !! p) /\
     sparse (fst (remove s i)) !! index lk = Some (N.of_nat d) /\
     sparse (fst (remove s i)) !! index i = Some usize_max) /\
  (forall (T : Type) (junk : nat -> N) (slack : nat) (g5 g0 g4 : N) (a b c : T),
     let s3 := fst (SparseSet.insert junk slack
                 (fst (SparseSet.insert junk slack
                    (fst (SparseSet.insert junk slack new (from_raw_parts 5 g5) a))
                    (from_raw_parts 0 g0) b))
                 (from_raw_parts 4 g4) c) in
     entries s3 = [(from_raw_parts 5 g5, a); (from_raw_parts 0 g0, b); (from_raw_parts 4 g4, c)] /\
     sparse s3 !! 0 = Some 1%N /\ sparse s3 !! 4 = Some 2%N /\ sparse s3 !! 5 = Some 0%N /\
     entries (fst (remove s3 (from_raw_parts 0 g0))) =
       [(from_raw_parts 5 g5, a); (from_raw_parts 4 g4, c)] /\
     sparse (fst (remove s3 (from_raw_parts 0 g0))) !! 4 = Some 1%N /\
     sparse (fst (remove s3 (from_raw_parts 0 g0))) !! 0 = Some usize_max).
Proof.
  split.
  - intros T s i v d lk lv Hwf Hd Hlt Hlast.
    destruct (remove_swap s i v d lk lv Hwf Hd Hlt Hlast) as [-> Hne]. cbn [fst snd entries sparse].
    destruct (swap_remove_spec (entries s) d (lk, lv) Hlt Hlast) as (Hl & Hat & Hother).
    pose proof (sparse_wf_in_range s _ _ _ Hwf Hd) as Hir.
    assert (Hlk : index lk < length (sparse s)).
    { apply (sparse_wf_in_range s (length (entries s) - 1) lk lv Hwf).
      rewrite last_lookup in Hlast. by replace (length (entries s) - 1) with (pred (length (entries s))) by lia. }
    split; [done |]. split; [done |]. split; [done |]. split; [done |]. split.
    + rewrite list_lookup_insert_ne by done. apply list_lookup_insert_eq; done.
    + apply list_lookup_insert_eq. by rewrite length_insert.
  - intros T junk slack g5 g0 g4 a b c s3.
    set (h5 := from_raw_parts 5 g5 : handle). set (h0 := from_raw_parts 0 g0 : handle).
    set (h4 := from_raw_parts 4 g4 : handle).
    destruct (insert_absent junk slack new h5 a) as (E1 & _ & S1 & _ & L1 & _).
    { intros p k w H. by destruct p. }
    set (s1 := fst (SparseSet.insert junk slack new h5 a)) in *.
    destruct (insert_absent junk slack s1 h0 b) as (E2 & _ & S2 & Le2 & L2 & K2).
    { intros p k w H. rewrite E1 in H. destruct p as [|[|p]]; simpl in H; [| discriminate | discriminate].
      injection H as <- _. discriminate. }
    set (s2 := fst (SparseSet.insert junk slack s1 h0 b)) in *.
    destruct (insert_absent junk slack s2 h4 c) as (E3 & _ & S3 & Le3 & L3 & K3).
    { intros p k w H. rewrite E2, E1 in H. destruct p as [|[|[|p]]]; simpl in H; try discriminate;
      injection H as <- _; discriminate. }
    change (fst (SparseSet.insert junk slack s2 h4 c)) with s3 in E3, S3, Le3, L3, K3.
    rewrite E2, E1 in E3. simpl in E3. rewrite E2, E1 in S3. simpl in S3.
    assert (S30 : sparse s3 !! 0 = Some 1%N) by (rewrite K3 by (simpl; lia); exact S2).
    assert (S35 : sparse s3 !! 5 = Some 0%N).
    { change (index h5) with 5 in L1. change (index h4) with 4 in K3.
      change (index h0) with 0 in K2.
      rewrite K3 by lia. rewrite K2 by lia. exact S1. }
    assert (Hwf : sparse_wf s3).
    { intros p k w H. rewrite E3 in H. destruct p as [|[|[|p]]]; simpl in H; try discriminate;
      injection H as <- _; assumption. }
    assert (Hlast : last (entries s3) = Some (h4, c)) by (rewrite E3; reflexivity).
    destruct (remove_swap s3 h0 b 1 h4 c Hwf ltac:(by rewrite E3) ltac:(rewrite E3; simpl; lia) Hlast)
      as [Hr _].
    rewrite Hr. cbn [fst entries sparse].
    split; [done |]. split; [done |]. split; [exact S3 |]. split; [done |].
    split; [rewrite E3; reflexivity |].
    split.
    + rewrite list_lookup_insert_ne by (simpl; lia). apply list_lookup_insert_eq.
      apply lookup_lt_Some in S3. done.
    + apply list_lookup_insert_eq. rewrite length_insert. by apply lookup_lt_Some in S30.
Qed.

(** C7: the general part at a concrete set of three entries, removing the
    middle one. *)
Lemma sparseset_swap_remove_witness :
  let s := mkSet [2%N; 0%N; 1%N] [(from_index 1, 10); (from_index 2, 20); (from_index 0, 30)] in
  sparse_wf s /\
  snd (remove s (from_index 2)) = Some 20 /\
  entries (fst (remove s (from_index 2))) !! 1 = Some (from_index 0, 30).
Proof.
  intros s.
  assert (Hwf : sparse_wf s).
  { intros p k w H. destruct p as [|[|[|p]]]; simpl in H; try discriminate;
    injection H as <- _; reflexivity. }
  destruct (proj1 sparseset_swap_remove nat s (from_index 2) 20 1 (from_index 0) 30 Hwf
              eq_refl ltac:(simpl; lia) eq_refl) as (H1 & _ & H3 & _).
  split; [exact Hwf |]. split; [exact H1 | exact H3].
Defined.

(** C10: inserting [(h2, v)] into a well-formed sparse set that holds an
    entry [(h, v0)] with the same index but another generation replaces
    only the value, returns [v0] and keeps [h] as the key: afterwards [h]
    resolves to [v] and [h2] to nothing. *)
Theorem sparseset_insert_same_index {T : Type} (junk : nat -> N) (slack : nat)
    (s : SparseSet (T:=T)) (h h2 : handle) (v0 v : T) (p : nat) :
  sparse_wf s -> entries s !! p = Some (h, v0) ->
  index h2 = index h -> generation h2 <> generation h ->
  SparseSet.insert junk slack s h2 v = (mkSet (sparse s) (<[p := (h, v)]> (entries s)), Some v0) /\
  get (fst (SparseSet.insert junk slack s h2 v)) h = Some v /\
  get (fst (SparseSet.insert junk slack s h2 v)) h2 = None.
Proof.
  intros Hwf Hp Hi Hg.
  pose proof (Hwf _ _ _ Hp) as Hs.
  assert (Hlt : p < length (entries s)) by (by apply lookup_lt_Some in Hp).
  assert (Hins : SparseSet.insert junk slack s h2 v =
                 (mkSet (sparse s) (<[p := (h, v)]> (entries s)), Some v0)).
  { unfold SparseSet.insert, get_sparse_dense_indices. cbn [fst snd].
    rewrite Hi, Hs, entry_at_of_nat, Hp, Nat.eqb_refl, Nat2N.id. reflexivity. }
  split; [exact Hins |]. rewrite Hins.
  unfold get, get_sparse_dense_indices. cbn [fst snd sparse entries].
  rewrite Hi, Hs, entry_at_of_nat, list_lookup_insert_eq by done.
  split.
  - by destruct (decide (h = h)).
  - destruct (decide (h2 = h)) as [-> | _]; [done | reflexivity].
Qed.

(** C10 at a concrete set: the entry [(2, generation 1)] and the handle
    [(2, generation 3)]. *)
Lemma sparseset_insert_same_index_witness :
  let s := mkSet [1%N; 2%N; 0%N] [(from_index 2, 10); (from_index 0, 20); (from_index 1, 30)] in
  sparse_wf s /\
  SparseSet.insert (fun _ => 0%N) 0 s (from_raw_parts 2 3%N) 99 =
    (mkSet (sparse s) [(from_index 2, 99); (from_index 0, 20); (from_index 1, 30)], Some 10) /\
  get (fst (SparseSet.insert (fun _ => 0%N) 0 s (from_raw_parts 2 3%N) 99)) (from_index 2) = Some 99.
Proof.
  intros s.
  assert (Hwf : sparse_wf s).
  { intros p k w H. destruct p as [|[|[|p]]]; simpl in H; try discriminate;
    injection H as <- _; reflexivity. }
  destruct (sparseset_insert_same_index (fun _ => 0%N) 0 s (from_index 2) (from_raw_parts 2 3%N)
              10 99 0 Hwf eq_refl eq_refl ltac:(discriminate)) as (H1 & H2 & _).
  split; [exact Hwf |]. split; [exact H1 | exact H2].
Defined.

(** *** The stable sort of [sort_by] *)

Section SortProofs.
Context {A : Type} (cmp : A -> A -> comparison).
Hypothesis cmp_sym : forall a b, cmp b a = CompOpp (cmp a b).
Hypothesis cmp_trans : forall a b c, cmp a b <> Gt -> cmp b c <> Gt -> cmp a c <> Gt.

Lemma cmp_refl a : cmp a a = Eq.
Proof. pose proof (cmp_sym a a). destruct (cmp a a); simpl in *; congruence. Qed.

Lemma cmp_le_flip a b : cmp a b <> Gt -> cmp b a <> Lt.
Proof. intros H. rewrite (cmp_sym a b). destruct (cmp a b); simpl; congruence. Qed.

Lemma cmp_eq_le a b : cmp a b = Eq -> cmp a b <> Gt /\ cmp b a <> Gt.
Proof. intros E. rewrite (cmp_sym a b), E. split; simpl; congruence. Qed.

Lemma sort_insert_perm x l : sort_insert cmp x l ≡ₚ x :: l.
Proof.
  induction l as [|y l IH]; simpl; [done |].
  destruct (cmp x y); [| done |]; rewrite IH; apply perm_swap.
Qed.

Lemma stable_sort_go_perm l acc :
  fold_left (fun acc x => sort_insert cmp x acc) l acc ≡ₚ l ++ acc.
Proof.
  revert acc; induction l as [|x l IH]; intros acc; simpl; [done |].
  rewrite IH, sort_insert_perm. symmetry. apply Permutation_middle.
Qed.

Lemma stable_sort_perm l : stable_sort cmp l ≡ₚ l.
Proof. unfold stable_sort. by rewrite stable_sort_go_perm, app_nil_r. Qed.

Lemma sort_insert_sorted x l :
  StronglySorted (fun a b => cmp a b <> Gt) l ->
  StronglySorted (fun a b => cmp a b <> Gt) (sort_insert cmp x l).
Proof.
  induction l as [|y l IH]; intros Hs; simpl.
  - repeat constructor.
  - apply StronglySorted_inv in Hs as [Hs Hall].
    destruct (cmp x y) eqn:E.
    + constructor; [by apply IH |].
      rewrite (sort_insert_perm x l). constructor; [| done].
      rewrite cmp_sym, E. simpl; congruence.
    + constructor; [by constructor |]. constructor; [congruence |].
      eapply Forall_impl; [exact Hall |]. intros z Hz. apply (cmp_trans x y z); [congruence | done].
    + constructor; [by apply IH |].
      rewrite (sort_insert_perm x l). constructor; [| done].
      rewrite cmp_sym, E. simpl; congruence.
Qed.

Lemma stable_sort_go_sorted l acc :
  StronglySorted (fun a b => cmp a b <> Gt) acc ->
  StronglySorted (fun a b => cmp a b <> Gt) (fold_left (fun acc x => sort_insert cmp x acc) l acc).
Proof.
  revert acc; induction l as [|x l IH]; intros acc Hs; simpl; [done |].
  apply IH. by apply sort_insert_sorted.
Qed.

Lemma stable_sort_sorted l : StronglySorted (fun a b => cmp a b <> Gt) (stable_sort cmp l).
Proof. apply stable_sort_go_sorted. constructor. Qed.

(** Inserting [x] keeps the order of the elements equivalent to [x0]
    already placed, and puts [x] after them. *)
Lemma filter_sort_insert x0 x l :
  StronglySorted (fun a b => cmp a b <> Gt) l ->
  filter (fun y => cmp y x0 = Eq) (sort_insert cmp x l) =
  filter (fun y => cmp y x0 = Eq) l ++ filter (fun y => cmp y x0 = Eq) [x].
Proof.
  induction l as [|y l IH]; intros Hs; simpl; [done |].
  apply StronglySorted_inv in Hs as [Hs Hall].
  destruct (cmp x y) eqn:E.
  - rewrite !filter_cons, IH by done. by destruct (decide (cmp y x0 = Eq)).
  - destruct (decide (cmp x x0 = Eq)) as [Px | Px];
      [| rewrite (filter_cons_False _ x), (filter_singleton_False _ x l) by done;
         by rewrite app_nil_r].
    rewrite (filter_cons_True _ x), (filter_singleton_True _ x l) by done.
    (* every element from [y] on is strictly above [x], so none is
       equivalent to [x0] *)
    assert (Hnone : forall z, z ∈ y :: l -> cmp z x0 <> Eq).
    { intros z Hz Pz.
      assert (Hyz : cmp y z <> Gt).
      { apply elem_of_cons in Hz as [-> | Hz]; [rewrite cmp_refl; congruence |].
        by eapply Forall_forall in Hall. }
      destruct (cmp_eq_le z x0 Pz) as [Hzx0 _]. destruct (cmp_eq_le x x0 Px) as [_ Hx0x].
      assert (Hyx : cmp y x <> Gt) by (apply (cmp_trans y z x); [done | eapply cmp_trans; eauto]).
      apply cmp_le_flip in Hyx. congruence. }
    assert (Hf : filter (fun y => cmp y x0 = Eq) (y :: l) = []).
    { clear -Hnone. induction (y :: l) as [|z l' IHl]; [done |].
      rewrite filter_cons, decide_False by (apply Hnone; constructor).
      apply IHl. intros w Hw. apply Hnone. by constructor. }
    by rewrite Hf.
  - rewrite !filter_cons, IH by done. by destruct (decide (cmp y x0 = Eq)).
Qed.

Lemma filter_stable_sort_go x0 l acc :
  StronglySorted (fun a b => cmp a b <> Gt) acc ->
  filter (fun y => cmp y x0 = Eq) (fold_left (fun acc x => sort_insert cmp x acc) l acc) =
  filter (fun y => cmp y x0 = Eq) acc ++ filter (fun y => cmp y x0 = Eq) l.
Proof.
  revert acc; induction l as [|x l IH]; intros acc Hs; simpl; [by rewrite app_nil_r |].
  rewrite IH by (by apply sort_insert_sorted). rewrite filter_sort_insert by done.
  rewrite <- app_assoc. f_equal. by rewrite <- filter_app.
Qed.

Lemma filter_stable_sort x0 l :
  filter (fun y => cmp y x0 = Eq) (stable_sort cmp l) = filter (fun y => cmp y x0 = Eq) l.
Proof. unfold stable_sort. rewrite filter_stable_sort_go by constructor. done. Qed.

End SortProofs.

(** *** The repair loop of [sort_by] *)

Section FixSparse.
Context {T : Type}.

Lemma length_fix_sparse p (es : list (handle * T)) sp :
  length (fix_sparse p es sp) = length sp.
Proof.
  revert p sp; induction es as [|[i w] es IH]; intros p sp; simpl; [done |].
  by rewrite IH, length_insert.
Qed.

Lemma fix_sparse_notin p (es : list (handle * T)) sp j :
  j ∉ (fun e => index (fst e)) <$> es -> fix_sparse p es sp !! j = sp !! j.
Proof.
  revert p sp; induction es as [|[i w] es IH]; intros p sp Hj; simpl; [done |].
  apply not_elem_of_cons in Hj as [Hne Hj].
  rewrite IH by done. by apply list_lookup_insert_ne.
Qed.

Lemma fix_sparse_at p (es : list (handle * T)) sp q k w :
  NoDup ((fun e => index (fst e)) <$> es) ->
  Forall (fun e => index (fst e) < length sp) es ->
  es !! q = Some (k, w) ->
  fix_sparse p es sp !! index k = Some (N.of_nat (p + q)).
Proof.
  revert p sp q; induction es as [|[i w0] es IH]; intros p sp q Hnd Hr Hq; simpl; [done |].
  apply NoDup_cons in Hnd as [Hnin Hnd]. apply Forall_cons in Hr as [Hri Hr].
  destruct q as [|q]; simpl in Hq.
  - injection Hq as <- <-. rewrite fix_sparse_notin by done.
    rewrite list_lookup_insert_eq by done. do 2 f_equal. lia.
  - rewrite (IH (S p) _ q); [do 2 f_equal; lia | done | | done].
    eapply Forall_impl; [exact Hr |]. intros e He. by rewrite length_insert.
Qed.

Lemma sparse_wf_keys (s : SparseSet (T:=T)) :
  sparse_wf s ->
  NoDup ((fun e => index (fst e)) <$> entries s) /\
  Forall (fun e => index (fst e) < length (sparse s)) (entries s).
Proof.
  intros Hwf. split.
  - apply NoDup_alt. intros i j x Hi Hj.
    rewrite list_lookup_fmap in Hi, Hj.
    destruct (entries s !! i) as [[k v] |] eqn:Ei; [| discriminate].
    destruct (entries s !! j) as [[k' v'] |] eqn:Ej; [| discriminate].
    simpl in Hi, Hj. injection Hi as Hi. injection Hj as Hj.
    apply (sparse_wf_inj s i j k v k' v' Hwf Ei Ej). congruence.
  - apply Forall_lookup. intros i [k v] Hi. exact (sparse_wf_in_range s _ _ _ Hwf Hi).
Qed.

End FixSparse.

(** C8: for a comparator that is a total preorder ([compare b a] is the
    opposite of [compare a b], and [<=] is transitive), [sort_by] on a
    well-formed sparse set permutes the entries into ascending order,
    keeps the relative order of the entries of each class of equal keys
    (stability), and leaves every entry's sparse slot holding its new dense
    position. *)
Theorem sparseset_sort_by {T : Type} (compare : handle * T -> handle * T -> comparison)
    (s : SparseSet (T:=T)) :
  (forall a b, compare b a = CompOpp (compare a b)) ->
  (forall a b c, compare a b <> Gt -> compare b c <> Gt -> compare a c <> Gt) ->
  sparse_wf s ->
  entries (sort_by compare s) ≡ₚ entries s /\
  StronglySorted (fun a b => compare a b <> Gt) (entries (sort_by compare s)) /\
  (forall x, filter (fun y => compare y x = Eq) (entries (sort_by compare s)) =
             filter (fun y => compare y x = Eq) (entries s)) /\
  (forall p k v, entries (sort_by compare s) !! p = Some (k, v) ->
     sparse (sort_by compare s) !! index k = Some (N.of_nat p)).
Proof.
  intros Hsym Htrans Hwf. unfold sort_by. cbn [entries sparse].
  pose proof (stable_sort_perm compare (entries s)) as Hperm.
  split; [done |]. split; [by apply stable_sort_sorted |].
  split; [intros x; by apply filter_stable_sort |].
  destruct (sparse_wf_keys s Hwf) as [Hnd Hr].
  intros p k v Hp. apply (fix_sparse_at 0 _ _ p k v); [| | done].
  - by rewrite Hperm.
  - by rewrite Hperm.
Qed.

(** C8 at a concrete set sorted by value, with two entries of value 2
    (handles 0 and 1, in that order). *)
Lemma sparseset_sort_by_witness :
  let s := mkSet [0%N; 2%N; 7%N; 7%N; 7%N; 1%N]
             [(from_index 0, 2); (from_index 5, 1); (from_index 1, 2)] in
  let cmp := fun a b : handle * nat => Nat.compare (snd a) (snd b) in
  sparse_wf s /\
  entries (sort_by cmp s) = [(from_index 5, 1); (from_index 0, 2); (from_index 1, 2)] /\
  sparse_wf (sort_by cmp s).
Proof.
  intros s cmp.
  assert (Hwf : sparse_wf s).
  { intros p k w H. destruct p as [|[|[|p]]]; simpl in H; try discriminate;
    injection H as <- _; reflexivity. }
  assert (Hsym : forall a b, cmp b a = CompOpp (cmp a b)).
  { intros a b. unfold cmp. apply Nat.compare_antisym. }
  assert (Htrans : forall a b c, cmp a b <> Gt -> cmp b c <> Gt -> cmp a c <> Gt).
  { intros a b c. unfold cmp. rewrite !Nat.compare_le_iff. lia. }
  destruct (sparseset_sort_by cmp s Hsym Htrans Hwf) as (_ & _ & _ & Hfix).
  split; [exact Hwf |]. split; [vm_compute; reflexivity | exact Hfix].
Defined.

End SparseSetProofs.

(* ================================================================== *)
(** ** More of the handle encodings *)

Module GenIndexFacts.

Lemma u64_parts (i g : Z) :
  (0 <= i < 2 ^ 32)%Z -> (0 <= g < 2 ^ 32)%Z ->
  IndexU64.raw (IndexU64.from_raw_parts i g) = (i + g * 2 ^ 32)%Z /\
  IndexU64.index (IndexU64.from_raw_parts i g) = i /\
  IndexU64.generation (IndexU64.from_raw_parts i g) = g.
Proof.
  intros Hi Hg.
  assert (Hraw : IndexU64.raw (IndexU64.from_raw_parts i g) = (i + g * 2 ^ 32)%Z).
  { unfold IndexU64.from_raw_parts, IndexU64.u64_wrap; simpl.
    rewrite Z.shiftl_mul_pow2 by lia.
    rewrite (Z.mod_small (g * 2 ^ 32)) by lia. apply Z.mod_small. lia. }
  split; [exact Hraw |].
  unfold IndexU64.index, IndexU64.generation, IndexU64.u32_max. rewrite Hraw.
  apply split_u32; assumption.
Qed.

Lemma f64_parts (i g : Z) :
  (0 <= i < 2 ^ 32)%Z -> (0 <= g < 2 ^ 32)%Z ->
  IndexF64.value (IndexF64.from_raw_parts i g) = (i + (g mod 2 ^ 21) * 2 ^ 32)%Z /\
  IndexF64.index (IndexF64.from_raw_parts i g) = i /\
  IndexF64.generation (IndexF64.from_raw_parts i g) = (g mod 2 ^ 21)%Z.
Proof.
  intros Hi Hg.
  pose proof (Z.mod_pos_bound g (2 ^ 21) ltac:(lia)) as Hm.
  assert (Hv : IndexF64.value (IndexF64.from_raw_parts i g) = (i + (g mod 2 ^ 21) * 2 ^ 32)%Z).
  { unfold IndexF64.from_raw_parts, IndexF64.MAX_SAFE_GENERATION; simpl.
    change (2 ^ 21 - 1)%Z with (Z.ones 21). rewrite Z.land_ones by lia.
    rewrite Z.shiftl_mul_pow2 by lia.
    rewrite (Z.mod_small (g mod 2 ^ 21 * 2 ^ 32)) by lia.
    rewrite (f64_round_small i) by lia.
    rewrite (f64_round_small (g mod 2 ^ 21 * 2 ^ 32)) by lia.
    apply f64_round_small. lia. }
  split; [exact Hv |].
  unfold IndexF64.index, IndexF64.generation, IndexF64.u32_max, IndexF64.f64_to_u64. rewrite Hv.
  destruct (Z.ltb_spec (i + g mod 2 ^ 21 * 2 ^ 32) 0); [lia |].
  destruct (Z.ltb_spec (2 ^ 64 - 1) (i + g mod 2 ^ 21 * 2 ^ 32)); [lia |].
  apply split_u32; lia.
Qed.

(** [IndexU64]: every [u64] value is the encoding of its own index and
    generation, so [from_raw_parts(h.index(), h.generation()) == h]. *)
Theorem indexu64_raw_roundtrip (r : Z) :
  (0 <= r < 2 ^ 64)%Z ->
  IndexU64.from_raw_parts (IndexU64.index (IndexU64.mk r)) (IndexU64.generation (IndexU64.mk r))
    = IndexU64.mk r.
Proof.
  intros Hr. unfold IndexU64.index, IndexU64.generation, IndexU64.u32_max; simpl.
  change (2 ^ 32 - 1)%Z with (Z.ones 32). rewrite Z.land_ones by lia.
  rewrite Z.shiftr_div_pow2 by lia.
  assert (Hq : (0 <= r / 2 ^ 32 < 2 ^ 32)%Z).
  { split; [apply Z.div_pos; lia |]. apply Z.div_lt_upper_bound; lia. }
  rewrite (Z.mod_small (r / 2 ^ 32)) by lia.
  pose proof (Z.mod_pos_bound r (2 ^ 32) ltac:(lia)).
  destruct (u64_parts (r mod 2 ^ 32) (r / 2 ^ 32) ltac:(lia) Hq) as [Hraw _].
  destruct (IndexU64.from_raw_parts (r mod 2 ^ 32) (r / 2 ^ 32)) as [r'] eqn:E.
  simpl in Hraw. subst r'. f_equal.
  rewrite (Z.div_mod r (2 ^ 32)) at 3 by lia. lia.
Qed.

Lemma indexu64_raw_roundtrip_witness :
  (0 <= (3 * 2 ^ 32 + 2) < 2 ^ 64)%Z /\
  IndexU64.from_raw_parts (IndexU64.index (IndexU64.mk (3 * 2 ^ 32 + 2)))
    (IndexU64.generation (IndexU64.mk (3 * 2 ^ 32 + 2))) = IndexU64.mk (3 * 2 ^ 32 + 2).
Proof. split; [lia | apply indexu64_raw_roundtrip; lia]. Defined.

(** [IndexF64] keeps only the low 21 bits of the generation: for any
    [u32] index and generation, [index()] returns the index and
    [generation()] the generation modulo [2^21]. *)
Theorem indexf64_generation_masked (i g : Z) :
  (0 <= i < 2 ^ 32)%Z -> (0 <= g < 2 ^ 32)%Z ->
  IndexF64.index (IndexF64.from_raw_parts i g) = i /\
  IndexF64.generation (IndexF64.from_raw_parts i g) = Z.land g IndexF64.MAX_SAFE_GENERATION.
Proof.
  intros Hi Hg. destruct (f64_parts i g Hi Hg) as (_ & -> & ->). split; [done |].
  unfold IndexF64.MAX_SAFE_GENERATION. change (2 ^ 21 - 1)%Z with (Z.ones 21).
  rewrite Z.land_ones by lia. reflexivity.
Qed.

Lemma indexf64_generation_masked_witness :
  (0 <= 7 < 2 ^ 32)%Z /\ (0 <= 2 ^ 21 + 5 < 2 ^ 32)%Z /\
  IndexF64.generation (IndexF64.from_raw_parts 7 (2 ^ 21 + 5)) = 5%Z.
Proof.
  split; [lia |]. split; [lia |].
  destruct (indexf64_generation_masked 7 (2 ^ 21 + 5) ltac:(lia) ltac:(lia)) as [_ ->].
  reflexivity.
Defined.

(** [IndexF64]: converting a handle to [f64] and back with [From<f64>]
    gives the same handle. *)
Theorem indexf64_f64_roundtrip (i g : Z) :
  (0 <= i < 2 ^ 32)%Z -> (0 <= g < 2 ^ 32)%Z ->
  IndexF64.from_f64 (IndexF64.value (IndexF64.from_raw_parts i g)) = IndexF64.from_raw_parts i g.
Proof.
  intros Hi Hg. pose proof (Z.mod_pos_bound g (2 ^ 21) ltac:(lia)).
  destruct (f64_parts i g Hi Hg) as (Hv & _ & _).
  destruct (IndexF64.from_raw_parts i g) as [v] eqn:E. simpl in Hv |- *. subst v.
  unfold IndexF64.from_f64, IndexF64.f64_to_u64, IndexF64.MAX_SAFE_VALUE. f_equal.
  destruct (Z.ltb_spec (i + g mod 2 ^ 21 * 2 ^ 32) 0); [lia |].
  destruct (Z.ltb_spec (2 ^ 64 - 1) (i + g mod 2 ^ 21 * 2 ^ 32)); [lia |].
  change (2 ^ 53 - 1)%Z with (Z.ones 53). rewrite land_ones_small by lia.
  apply f64_round_small. lia.
Qed.

Lemma indexf64_f64_roundtrip_witness :
  (0 <= 9 < 2 ^ 32)%Z /\ (0 <= 4 < 2 ^ 32)%Z /\
  IndexF64.from_f64 (IndexF64.value (IndexF64.from_raw_parts 9 4)) = IndexF64.from_raw_parts 9 4.
Proof. split; [lia |]. split; [lia |]. apply indexf64_f64_roundtrip; lia. Defined.



(** [next_generation] on [IndexU64]: the result keeps the index, has
    another generation in [1 ..= u32::MAX], and is not the null (zero)
    handle. *)
Theorem indexu64_next_generation (r : Z) :
  (0 <= r < 2 ^ 64)%Z ->
  IndexU64.index (IndexU64.next_generation (IndexU64.mk r)) = IndexU64.index (IndexU64.mk r) /\
  IndexU64.generation (IndexU64.next_generation (IndexU64.mk r)) <> IndexU64.generation (IndexU64.mk r) /\
  (1 <= IndexU64.generation (IndexU64.next_generation (IndexU64.mk r)) <= IndexU64.max_generation)%Z /\
  IndexU64.next_generation (IndexU64.mk r) <> IndexU64.mk 0.
Proof.
  intros Hr.
  set (i := IndexU64.index (IndexU64.mk r)). set (g := IndexU64.generation (IndexU64.mk r)).
  assert (Hi : (0 <= i < 2 ^ 32)%Z).
  { unfold i, IndexU64.index, IndexU64.u32_max; simpl. change (2 ^ 32 - 1)%Z with (Z.ones 32).
    rewrite Z.land_ones by lia. apply Z.mod_pos_bound. lia. }
  assert (Hg : (0 <= g < 2 ^ 32)%Z).
  { unfold g, IndexU64.generation; simpl. apply Z.mod_pos_bound. lia. }
  unfold IndexU64.next_generation, IndexU64.max_generation, IndexU64.u32_max. fold i g.
  set (g' := if (g =? 2 ^ 32 - 1)%Z then 1%Z else (g + 1)%Z).
  assert (Hg' : (1 <= g' <= 2 ^ 32 - 1)%Z /\ g' <> g).
  { unfold g'. destruct (Z.eqb_spec g (2 ^ 32 - 1)); lia. }
  destruct (u64_parts i g' Hi ltac:(lia)) as (Hraw & -> & ->).
  split; [done |]. split; [lia |]. split; [lia |].
  intros H. rewrite H in Hraw. simpl in Hraw. lia.
Qed.

Lemma indexu64_next_generation_witness :
  (0 <= 2 ^ 64 - 1 < 2 ^ 64)%Z /\
  IndexU64.generation (IndexU64.next_generation (IndexU64.mk (2 ^ 64 - 1))) = 1%Z.
Proof.
  split; [lia |].
  pose proof (indexu64_next_generation (2 ^ 64 - 1) ltac:(lia)).
  vm_compute. reflexivity.
Defined.

(** [next_generation] on [IndexF64]: from a handle with a [u32] index and
    a generation of at most [MAX_SAFE_GENERATION], the result keeps the
    index and has another generation in [1 ..= MAX_SAFE_GENERATION]. *)
Theorem indexf64_next_generation (i g : Z) :
  (0 <= i < 2 ^ 32)%Z -> (0 <= g <= IndexF64.MAX_SAFE_GENERATION)%Z ->
  IndexF64.index (IndexF64.next_generation (IndexF64.from_raw_parts i g)) = i /\
  IndexF64.generation (IndexF64.next_generation (IndexF64.from_raw_parts i g)) <> g /\
  (1 <= IndexF64.generation (IndexF64.next_generation (IndexF64.from_raw_parts i g))
     <= IndexF64.MAX_SAFE_GENERATION)%Z.
Proof.
  unfold IndexF64.MAX_SAFE_GENERATION. intros Hi Hg.
  destruct (f64_parts i g Hi ltac:(lia)) as (_ & Hix & Hgx).
  rewrite Z.mod_small in Hgx by lia.
  unfold IndexF64.next_generation, IndexF64.max_generation, IndexF64.MAX_SAFE_GENERATION.
  rewrite Hix, Hgx.
  set (g' := if (g =? 2 ^ 21 - 1)%Z then 1%Z else (g + 1)%Z).
  assert (Hg' : (1 <= g' <= 2 ^ 21 - 1)%Z /\ g' <> g).
  { unfold g'. destruct (Z.eqb_spec g (2 ^ 21 - 1)); lia. }
  destruct (f64_parts i g' Hi ltac:(lia)) as (_ & -> & ->).
  rewrite Z.mod_small by lia. split; [done |]. lia.
Qed.

Lemma indexf64_next_generation_witness :
  (0 <= 5 < 2 ^ 32)%Z /\ (0 <= 2 ^ 21 - 1 <= IndexF64.MAX_SAFE_GENERATION)%Z /\
  IndexF64.generation (IndexF64.next_generation (IndexF64.from_raw_parts 5 (2 ^ 21 - 1))) = 1%Z.
Proof.
  split; [lia |]. split; [unfold IndexF64.MAX_SAFE_GENERATION; lia |].
  pose proof (indexf64_next_generation 5 (2 ^ 21 - 1) ltac:(lia)
                ltac:(unfold IndexF64.MAX_SAFE_GENERATION; lia)).
  vm_compute. reflexivity.
Defined.

(** [PartialOrd for IndexPair]: [Some(Equal)] exactly for equal handles,
    [None] exactly for distinct handles with the same index, swapping the
    arguments reverses the answer, and [<] is transitive. *)
Theorem pair_partial_cmp (a b c : handle) :
  (partial_cmp a b = Some Eq <-> a = b) /\
  (partial_cmp a b = None <-> index a = index b /\ a <> b) /\
  partial_cmp b a = option_map CompOpp (partial_cmp a b) /\
  (partial_cmp a b = Some Lt -> partial_cmp b c = Some Lt -> partial_cmp a c = Some Lt).
Proof.
  destruct a as [ia ga], b as [ib gb], c as [ic gc].
  unfold partial_cmp, IndexPair.index, IndexPair.generation; simpl.
  rewrite (Nat.compare_antisym ia ib).
  destruct (Nat.compare_spec ia ib) as [-> | H | H]; simpl.
  - destruct (N.eqb_spec ga gb) as [-> | E]; simpl.
    + rewrite N.eqb_refl. split; [done |]. split; [split; [discriminate | intros [_ []]; done] |].
      split; [done | discriminate].
    + destruct (N.eqb_spec gb ga); [congruence |].
      split; [split; [discriminate | intros H; injection H; congruence] |].
      split; [split; [intros _; split; [done | intros H; injection H; congruence] | done] |].
      split; [done | discriminate].
  - split; [split; [discriminate | intros H'; injection H'; lia] |].
    split; [split; [discriminate | intros [E _]; lia] |]. split; [done |].
    intros _ Hbc. destruct (Nat.compare_spec ib ic);
      [destruct (gb =? gc)%N; discriminate | | discriminate].
    destruct (Nat.compare_spec ia ic); [lia | done | lia].
  - split; [split; [discriminate | intros H'; injection H'; lia] |].
    split; [split; [discriminate | intros [E _]; lia] |]. split; [done | discriminate].
Qed.

(** [PartialOrd for IndexU64]: the same laws. *)
Theorem indexu64_partial_cmp (a b c : IndexU64.IndexU64) :
  (IndexU64.partial_cmp a b = Some Eq <-> a = b) /\
  (IndexU64.partial_cmp a b = None <-> IndexU64.index a = IndexU64.index b /\ a <> b) /\
  IndexU64.partial_cmp b a = option_map CompOpp (IndexU64.partial_cmp a b) /\
  (IndexU64.partial_cmp a b = Some Lt -> IndexU64.partial_cmp b c = Some Lt ->
   IndexU64.partial_cmp a c = Some Lt).
Proof.
  assert (Hraw : forall x y : IndexU64.IndexU64, x = y <-> IndexU64.raw x = IndexU64.raw y).
  { intros [x] [y]; simpl. split; [intros H; injection H; done | intros ->; done]. }
  unfold IndexU64.partial_cmp.
  rewrite (Z.eqb_sym (IndexU64.raw b) (IndexU64.raw a)).
  rewrite (Z.compare_antisym (IndexU64.index a) (IndexU64.index b)).
  destruct (Z.eqb_spec (IndexU64.raw a) (IndexU64.raw b)) as [E | E].
  - assert (a = b) as <- by (by apply Hraw).
    split; [done |]. split; [split; [discriminate | intros [_ []]; done] |].
    split; [done | discriminate].
  - assert (Hne : a <> b) by (rewrite Hraw; done).
    destruct (Z.compare_spec (IndexU64.index a) (IndexU64.index b)) as [Ei | Ei | Ei]; simpl.
    + split; [split; [discriminate | done] |]. split; [tauto |]. split; [done | discriminate].
    + split; [split; [discriminate | done] |]. split; [split; [discriminate | lia] |].
      split; [done |]. intros _.
      destruct (Z.eqb_spec (IndexU64.raw b) (IndexU64.raw c)); [discriminate |].
      destruct (Z.compare_spec (IndexU64.index b) (IndexU64.index c)); try discriminate.
      intros _.
      destruct (Z.eqb_spec (IndexU64.raw a) (IndexU64.raw c)) as [Eac | _].
      * assert (a = c) as -> by (by apply Hraw). lia.
      * destruct (Z.compare_spec (IndexU64.index a) (IndexU64.index c)); [lia | done | lia].
    + split; [split; [discriminate | done] |]. split; [split; [discriminate | lia] |].
      split; [done | discriminate].
Qed.

End GenIndexFacts.

(* ================================================================== *)
(** ** PagedSlotMap: the map operations *)

Module SlotMapFacts.
Import SlotMap SlotMapInv SlotMapProofs.

Section Storage.
Context {T : Type} (PN : nat).
Implicit Types (m : PagedSlotMap (T:=T)) (vals : list (list (option T))).

Lemma div_mod_inj i j :
  i / PN = j / PN -> i mod PN = j mod PN -> i = j.
Proof.
  intros Hd Hm. destruct PN as [|p]; [simpl in Hm; done |].
  rewrite (Nat.div_mod_eq i (S p)), (Nat.div_mod_eq j (S p)). lia.
Qed.

(** Writing a cell leaves every other cell as it was. *)
Lemma get_value_write_ne vals idx j v :
  idx <> j -> get_value PN (write_value PN vals idx v) j = get_value PN vals j.
Proof.
  intros Hne. unfold get_value, write_value.
  destruct (decide (idx / PN = j / PN)) as [Hd | Hd].
  - rewrite <- Hd, list_lookup_alter_eq, Hd.
    destruct (vals !! (j / PN)) as [p |]; simpl; [| done].
    rewrite list_lookup_insert_ne; [done |].
    intros Hm. apply Hne. by apply div_mod_inj.
  - by rewrite list_lookup_alter_ne by done.
Qed.

(** Writing a cell inside the pages stores the value there. *)
Lemma get_value_write_eq vals idx v :
  Forall (fun p => length p = PN) vals -> idx < length vals * PN ->
  get_value PN (write_value PN vals idx v) idx = Some v.
Proof.
  intros Hall Hidx. assert (HPN : 0 < PN) by (destruct PN; lia).
  assert (Hq : idx / PN < length vals) by (apply Nat.Div0.div_lt_upper_bound; lia).
  destruct (lookup_lt_is_Some_2 vals (idx / PN) Hq) as [p Hp].
  pose proof (Forall_lookup_1 _ _ _ _ Hall Hp) as Hlen. simpl in Hlen.
  unfold get_value, write_value. rewrite list_lookup_alter_eq, Hp. simpl.
  rewrite list_lookup_insert_eq; [done |]. rewrite Hlen. apply Nat.mod_upper_bound. lia.
Qed.

Lemma write_value_pages vals idx v :
  Forall (fun p => length p = PN) vals -> Forall (fun p => length p = PN) (write_value PN vals idx v).
Proof.
  intros Hall. apply Forall_lookup. intros i p Hp. unfold write_value in Hp.
  destruct (decide (i = idx / PN)) as [-> | Hi].
  - rewrite list_lookup_alter_eq in Hp.
    destruct (vals !! (idx / PN)) as [p0 |] eqn:E; simpl in Hp; [| discriminate].
    injection Hp as <-. rewrite length_insert. exact (Forall_lookup_1 _ _ _ _ Hall E).
  - rewrite list_lookup_alter_ne in Hp by congruence. exact (Forall_lookup_1 _ _ _ _ Hall Hp).
Qed.

(** Appending a page leaves the cells of the old pages as they were. *)
Lemma get_value_app_page vals p j :
  j < length vals * PN -> get_value PN (vals ++ [p]) j = get_value PN vals j.
Proof.
  intros Hj. assert (HPN : 0 < PN) by (destruct PN; lia).
  unfold get_value. rewrite lookup_app_l; [done |].
  apply Nat.Div0.div_lt_upper_bound. lia.
Qed.

(** [get] as one test: the stored handle at [k.index()] is [k]. *)
Lemma get_decide m k :
  get PN m k = if decide (indices m !! index k = Some k)
               then Some (get_value PN (values m) (index k)) else None.
Proof.
  unfold get. destruct (indices m !! index k) as [s |].
  - destruct (decide (s = k)) as [-> | Hs].
    + by rewrite decide_True.
    + rewrite decide_False; [done | congruence].
  - by rewrite decide_False.
Qed.

Lemma get_ext m m' k :
  (indices m' !! index k = Some k <-> indices m !! index k = Some k) ->
  (indices m !! index k = Some k -> get_value PN (values m') (index k) = get_value PN (values m) (index k)) ->
  get PN m' k = get PN m k.
Proof.
  intros Hiff Hv. rewrite !get_decide.
  destruct (decide (indices m !! index k = Some k)) as [H | H].
  - rewrite decide_True by (by apply Hiff). by rewrite Hv.
  - rewrite decide_False; [done | by rewrite Hiff].
Qed.

(** Under the free-list invariant, [free_list_size] never exceeds the
    number of slots, so [len] does not underflow. *)
Lemma free_list_size_le m :
  free_list_inv m -> free_list_size m <= length (indices m).
Proof.
  intros [Hnd Hdead _].
  rewrite <- (length_free_chain (indices m) (free_list_head m) (free_list_size m)).
  change (length (chain_of m) <= length (indices m)).
  rewrite <- (length_seq (length (indices m)) 0).
  apply NoDup_incl_length; [by apply NoDup_ListNoDup |].
  intros i Hi. apply list_elem_of_In, Hdead, slot_dead_in_range in Hi.
  apply in_seq. lia.
Qed.

(** [push] on an empty free list: a new slot [from_index(len)] at the end,
    a new page when the pages are full, the value written there. *)
Lemma push_append_spec m v :
  free_list_size m = 0 -> pages_wf PN m ->
  let idx := length (indices m) in
  snd (push PN m v) = from_index idx /\
  indices (fst (push PN m v)) = indices m ++ [from_index idx] /\
  free_list_size (fst (push PN m v)) = 0 /\
  pages_wf PN (fst (push PN m v)) /\
  get_value PN (values (fst (push PN m v))) idx = Some v /\
  (forall j, j < idx -> get_value PN (values (fst (push PN m v))) j = get_value PN (values m) j).
Proof.
  intros Hfs (HPN & Hall & Hcap). cbv zeta.
  destruct m as [ixs vals fh ft fs]; simpl in *; subst fs.
  unfold push; cbn [free_list_size indices values Nat.eqb fst snd].
  set (idx := length ixs).
  set (vals' := if length vals * PN <=? idx then vals ++ [new_page PN] else vals).
  assert (Hv' : Forall (fun p => length p = PN) vals' /\ idx < length vals' * PN /\
                forall j, j < idx -> get_value PN vals' j = get_value PN vals j).
  { unfold vals'. destruct (Nat.leb_spec (length vals * PN) idx) as [Hle | Hlt].
    - split; [apply Forall_app; split; [done | constructor; [apply length_replicate | constructor]] |].
      rewrite length_app. simpl. split; [nia |].
      intros j Hj. apply get_value_app_page. unfold idx in *. lia.
    - split; [done |]. split; [done | done]. }
  destruct Hv' as (Hall' & Hidx' & Hold).
  split; [done |]. split; [done |]. split; [done |]. split.
  - split; [done |]. split; [by apply write_value_pages |].
    cbn [indices values]. rewrite length_write_value, length_app. simpl. unfold idx in *. lia.
  - split; [by apply get_value_write_eq |].
    intros j Hj. rewrite get_value_write_ne by lia. by apply Hold.
Qed.

(** [push] returns a handle that was not valid before and now reads the
    value; every other handle reads as before. *)
Lemma push_spec m v :
  free_list_inv m -> pages_wf PN m ->
  get PN (fst (push PN m v)) (snd (push PN m v)) = Some (Some v) /\
  get PN m (snd (push PN m v)) = None /\
  (forall k, k <> snd (push PN m v) -> get PN (fst (push PN m v)) k = get PN m k) /\
  len (fst (push PN m v)) = S (len m) /\
  free_list_inv (fst (push PN m v)) /\ pages_wf PN (fst (push PN m v)).
Proof.
  intros Hinv Hwf.
  pose proof (push_free_list_inv PN m v Hinv) as Hinv'.
  destruct (decide (free_list_size m = 0)) as [H0 | H0].
  - destruct (push_append_spec m v H0 Hwf) as (Hh & Hix & Hfs & Hwf' & Hnew & Hold).
    cbv zeta in *. set (idx := length (indices m)) in *.
    rewrite Hh in *. set (m' := fst (push PN m v)) in *.
    assert (Hidx : index (from_index idx) = idx) by reflexivity.
    split.
    { rewrite get_decide, Hidx, Hix, decide_True by (by apply list_lookup_middle).
      by rewrite Hnew. }
    split.
    { rewrite get_decide, Hidx, decide_False; [done |].
      rewrite lookup_ge_None_2 by (unfold idx; lia). discriminate. }
    split.
    { intros k Hk. apply get_ext.
      - rewrite Hix. split.
        + intros [Hl | [_ Hr]]%lookup_app_Some; [done |].
          apply list_lookup_singleton_Some in Hr as [_ Hr]. congruence.
        + intros Hl. by apply lookup_app_l_Some.
      - intros Hl. apply Hold. by eapply lookup_lt_Some. }
    split.
    { unfold len. rewrite Hix, Hfs, H0, length_app. simpl. unfold idx. lia. }
    split; done.
  - destruct Hwf as (HPN & Hall & Hcap).
    pose proof (free_list_size_le m Hinv) as Hle.
    destruct m as [ixs vals fh ft [|n]]; [simpl in H0; lia |].
    assert (Hfhd : slot_dead ixs fh).
    { apply (fl_dead _ Hinv). rewrite (chain_of_cons _ n) by reflexivity. by left. }
    destruct Hfhd as (h0 & Hh0 & Hne0).
    pose proof (lookup_lt_Some _ _ _ Hh0) as Hfhl.
    set (h := from_raw_parts fh (generation (next_generation h0)) : handle).
    assert (Epush : push PN (mkMap ixs vals fh ft (S n)) v
                    = (mkMap (<[fh := h]> ixs) (write_value PN vals fh v) (index h0) ft n, h)).
    { unfold push; cbn [free_list_size free_list_head indices values Nat.eqb].
      rewrite (list_lookup_total_correct _ _ _ Hh0). simpl. rewrite ?Nat.sub_0_r. reflexivity. }
    rewrite Epush in Hinv' |- *. cbn [fst snd] in *. simpl in Hle, Hcap.
    assert (Hidx : index h = fh) by reflexivity.
    split.
    { rewrite get_decide. cbn [indices values]. rewrite Hidx, list_lookup_insert_eq by done.
      rewrite decide_True by done. rewrite get_value_write_eq by (done || lia). done. }
    split.
    { rewrite get_decide. cbn [indices]. rewrite Hidx, Hh0, decide_False; [done |].
      intros [= E]. apply Hne0. by rewrite E. }
    split.
    { intros k Hk. apply get_ext; cbn [indices values].
      - destruct (decide (index k = fh)) as [Ek | Ek].
        + rewrite Ek, list_lookup_insert_eq, Hh0 by done.
          split; intros [= E]; [congruence |]. subst h0. congruence.
        + by rewrite list_lookup_insert_ne by congruence.
      - intros Hl. apply get_value_write_ne. intros Ek.
        rewrite <- Ek, Hh0 in Hl. injection Hl as ->. congruence. }
    split.
    { unfold len. cbn [indices free_list_size]. rewrite length_insert. lia. }
    split; [done |].
    split; [done |]. cbn [values indices]. split; [by apply write_value_pages |].
    by rewrite length_insert, length_write_value.
Qed.

(** [remove] of a valid handle returns its value; the handle is no longer
    valid and a second [remove] returns [None]; every other handle reads
    as before; [len] drops by one. *)
Lemma remove_spec m k c :
  free_list_inv m -> pages_wf PN m -> get PN m k = Some c ->
  snd (remove PN m k) = Some c /\
  get PN (fst (remove PN m k)) k = None /\
  snd (remove PN (fst (remove PN m k)) k) = None /\
  (forall k', k' <> k -> get PN (fst (remove PN m k)) k' = get PN m k') /\
  S (len (fst (remove PN m k))) = len m /\
  free_list_inv (fst (remove PN m k)) /\ pages_wf PN (fst (remove PN m k)).
Proof.
  intros Hinv Hwf Hget. rewrite get_decide in Hget.
  destruct (decide (indices m !! index k = Some k)) as [Hk |]; [| discriminate].
  injection Hget as <-.
  destruct (remove_live_free_list PN m k Hinv Hk) as (Hinv' & Hc & Hl & Hv & Hlive).
  assert (Hsnd : snd (remove PN m k) = Some (get_value PN (values m) (index k))).
  { unfold remove. rewrite Hk, decide_True by done. reflexivity. }
  set (m' := fst (remove PN m k)) in *.
  assert (Hdead' : slot_dead (indices m') (index k)).
  { apply (fl_dead _ Hinv'). rewrite Hc. apply elem_of_app. right. by left. }
  assert (Hnk : indices m' !! index k <> Some k).
  { destruct Hdead' as (h & Hh & Hne). rewrite Hh. intros [= ->]. done. }
  split; [done |].
  split; [by rewrite get_decide, decide_False |].
  split.
  { unfold remove. destruct (indices m' !! index k) as [s |] eqn:E; [| done].
    rewrite decide_False; [done | congruence]. }
  split.
  { intros k' Hk'. apply get_ext; [| intros _; by rewrite Hv]. split.
    - intros H'.
      assert (Hnotin : index k' ∉ chain_of m').
      { intros Hin%(fl_dead _ Hinv'). eapply slot_live_not_dead; [| exact Hin]. exists k'. done. }
      rewrite Hc in Hnotin. apply not_elem_of_app in Hnotin as [Hn1 Hn2].
      assert (Hlt : index k' < length (indices m)) by (rewrite <- Hl; by eapply lookup_lt_Some).
      destruct (lookup_lt_is_Some_2 (indices m) (index k') Hlt) as [h0 Hh0].
      destruct (decide (index h0 = index k')) as [Hi | Hi].
      + rewrite (Hlive (index k') h0) in H'; [congruence | | done | done].
        intros E. apply Hn2. rewrite E. by left.
      + exfalso. apply Hn1. apply (fl_dead _ Hinv). exists h0. done.
    - intros H'. apply Hlive; [| done | done]. intros E.
      rewrite E, Hk in H'. congruence. }
  assert (Hs : free_list_size m' = S (free_list_size m)).
  { rewrite <- (length_free_chain (indices m') (free_list_head m') (free_list_size m')),
      <- (length_free_chain (indices m) (free_list_head m) (free_list_size m)).
    change (length (chain_of m') = S (length (chain_of m))).
    rewrite Hc, length_app. simpl. lia. }
  split.
  { pose proof (free_list_size_le m' Hinv') as Hle. unfold len. rewrite Hl in *. lia. }
  split; [done |].
  destruct Hwf as (HPN & Hall & Hcap). split; [done |]. rewrite Hv, Hl. done.
Qed.

(** [MapInsert::insert] replaces the value of a valid handle and returns
    the old one, touching nothing else; on any other handle it returns
    [None] and leaves the map as it was. *)
Lemma map_insert_spec m k v :
  pages_wf PN m ->
  (forall c, get PN m k = Some c ->
     snd (map_insert PN m k v) = Some c /\
     get PN (fst (map_insert PN m k v)) k = Some (Some v) /\
     (forall k', k' <> k -> get PN (fst (map_insert PN m k v)) k' = get PN m k') /\
     indices (fst (map_insert PN m k v)) = indices m /\
     free_list_head (fst (map_insert PN m k v)) = free_list_head m /\
     free_list_tail (fst (map_insert PN m k v)) = free_list_tail m /\
     free_list_size (fst (map_insert PN m k v)) = free_list_size m) /\
  (get PN m k = None -> map_insert PN m k v = (m, None)).
Proof.
  intros (HPN & Hall & Hcap).
  assert (Hmi : map_insert PN m k v =
    match get PN m k with
    | Some old => (mkMap (indices m) (write_value PN (values m) (index k) v)
                    (free_list_head m) (free_list_tail m) (free_list_size m), Some old)
    | None => (m, None)
    end) by reflexivity.
  split.
  - intros c Hc. rewrite Hmi, Hc. cbn [fst snd].
    rewrite get_decide in Hc.
    destruct (decide (indices m !! index k = Some k)) as [Hk |]; [| discriminate].
    split; [done |].
    split.
    { rewrite get_decide. cbn [indices values]. rewrite decide_True by done.
      rewrite get_value_write_eq; [done | done |].
      apply lookup_lt_Some in Hk. lia. }
    split; [| done].
    intros k' Hk'. apply get_ext; cbn [indices values]; [done |].
    intros Hl. apply get_value_write_ne. intros E. rewrite <- E, Hk in Hl. congruence.
  - intros Hn. by rewrite Hmi, Hn.
Qed.

(** Pushing onto a map without free slots appends one [from_index] slot
    per value, in order. *)
Lemma push_all_append m vs :
  free_list_size m = 0 -> pages_wf PN m ->
  let base := length (indices m) in
  snd (push_all PN m vs) = map from_index (seq base (length vs)) /\
  indices (fst (push_all PN m vs)) = indices m ++ map from_index (seq base (length vs)) /\
  free_list_size (fst (push_all PN m vs)) = 0 /\
  pages_wf PN (fst (push_all PN m vs)) /\
  (forall j, j < base -> get_value PN (values (fst (push_all PN m vs))) j = get_value PN (values m) j) /\
  (forall i v, vs !! i = Some v -> get_value PN (values (fst (push_all PN m vs))) (base + i) = Some v).
Proof.
  revert m; induction vs as [|v vs IH]; intros m H0 Hwf; cbv zeta; cbn [push_all fst snd].
  - rewrite app_nil_r. split; [done |]. split; [done |]. split; [done |]. split; [done |].
    split; [done |]. intros i v Hv. by rewrite lookup_nil in Hv.
  - destruct (push_append_spec m v H0 Hwf) as (Hh & Hix & Hfs & Hwf1 & Hnew & Hold).
    cbv zeta in *. set (base := length (indices m)) in *.
    destruct (push PN m v) as [m1 h] eqn:E. cbn [fst snd] in *.
    destruct (IH m1 Hfs Hwf1) as (Hs & Hix2 & Hfs2 & Hwf2 & Hold2 & Hnew2).
    destruct (push_all PN m1 vs) as [m2 hs] eqn:E2. cbn [fst snd] in *.
    rewrite Hix, length_app in Hs, Hix2, Hold2, Hnew2. cbn [length] in Hs, Hix2, Hold2, Hnew2.
    change (length (indices m)) with base in Hs, Hix2, Hold2, Hnew2.
    replace (base + 1) with (S base) in Hs, Hix2, Hold2, Hnew2 by lia.
    cbn [length seq map]. subst h.
    split; [by rewrite Hs |].
    split; [by rewrite Hix2, <- app_assoc |].
    split; [done |]. split; [done |].
    split.
    { intros j Hj. rewrite Hold2 by lia. by apply Hold. }
    intros [|i] w Hw; cbn [lookup list_lookup] in Hw.
    + injection Hw as <-. rewrite Hold2 by lia. rewrite Nat.add_0_r. done.
    + rewrite <- (Hnew2 i w Hw). f_equal. lia.
Qed.

(** [FromIterator]: slot [i] holds the [i]-th value under
    [from_index(i)]. *)
Lemma from_iter_spec (vs : list T) :
  0 < PN ->
  snd (push_all PN new vs) = map from_index (seq 0 (length vs)) /\
  (forall k, get PN (from_iter PN vs) k =
             if decide (generation k = 1%N) then Some <$> vs !! index k else None) /\
  len (from_iter PN vs) = length vs /\
  free_list_inv (from_iter PN vs) /\ pages_wf PN (from_iter PN vs).
Proof.
  intros HPN.
  assert (Hwf0 : pages_wf PN (@new T)) by (split; [done | split; [constructor | simpl; lia]]).
  destruct (push_all_append new vs eq_refl Hwf0) as (Hs & Hix & Hfs & Hwf & _ & Hnew).
  cbv zeta in *. cbn [indices length new] in Hs, Hix, Hnew.
  unfold from_iter, extend.
  split; [done |].
  split.
  { intros k. rewrite get_decide, Hix. cbn [app]. rewrite list_lookup_fmap.
    destruct (decide (index k < length vs)) as [Hlt | Hge].
    - rewrite lookup_seq_lt by done.
      destruct (lookup_lt_is_Some_2 vs (index k) Hlt) as [v Hv]. rewrite Hv.
      specialize (Hnew (index k) v Hv). cbn [Nat.add] in Hnew.
      destruct k as [i g]. unfold index, generation, IndexPair.index, IndexPair.generation in *.
      cbn [IndexPair.ip_index IndexPair.ip_generation] in *.
      destruct (decide (g = 1%N)) as [-> | Hg].
      + rewrite decide_True by reflexivity. by rewrite Hnew.
      + rewrite decide_False; [done |]. intros [= Hg']. done.
    - rewrite lookup_seq_ge by lia. rewrite (lookup_ge_None_2 vs) by lia.
      cbn [fmap option_fmap option_map]. by repeat case_decide. }
  split.
  { unfold len. rewrite Hix, Hfs. cbn [app]. rewrite length_map, length_seq. lia. }
  split; [| done].
  apply push_all_free_list_inv, new_free_list_inv.
Qed.

(** The forward walk over slots whose index fields are their positions. *)
Lemma collect_go_next_live l vals s e fuel :
  (forall j h, l !! j = Some h -> index h = s + j) -> length l < fuel ->
  collect_go (iter_next PN) fuel (mkIter l vals s e)
    = map (fun h => (h, get_value PN vals (index h))) l.
Proof.
  revert s fuel; induction l as [|h l IH]; intros s [|fuel] Hl Hf; cbn [length] in Hf; try lia.
  - reflexivity.
  - cbn [collect_go]. unfold iter_next; cbn [it_index it_start it_values it_end].
    assert (Hh : index h = s) by (rewrite (Hl 0 h) by done; lia).
    rewrite Hh, Nat.eqb_refl. cbn [map]. f_equal; [by rewrite Hh |].
    apply IH; [| lia]. intros j h' Hj. rewrite (Hl (S j) h') by done. lia.
Qed.

(** The backward walk over the same slots. *)
Lemma collect_go_back_live l vals s fuel :
  (forall j h, l !! j = Some h -> index h = s + j) -> length l < fuel ->
  collect_go (iter_next_back PN) fuel (mkIter l vals s (s + length l))
    = reverse (map (fun h => (h, get_value PN vals (index h))) l).
Proof.
  revert fuel; induction l as [|h l IH] using rev_ind; intros [|fuel] Hl Hf; try (simpl in Hf; lia).
  - reflexivity.
  - rewrite length_app in Hf. cbn [length] in Hf.
    cbn [collect_go]. unfold iter_next_back; cbn [it_index it_start it_values it_end].
    rewrite last_snoc, removelast_last, length_app. cbn [length].
    assert (Hh : index h = s + length l) by (apply Hl; by apply list_lookup_middle).
    replace (s + (length l + 1) - 1) with (s + length l) by lia.
    rewrite Hh, Nat.eqb_refl, map_app, reverse_app. cbn [map]. rewrite reverse_singleton.
    cbn [app]. f_equal; [by rewrite Hh |].
    apply IH; [| lia]. intros j h' Hj. apply Hl. by apply lookup_app_l_Some.
Qed.

(** With no free slot, [iter()] and [iter().rev()] see every slot. *)
Lemma iter_all_live m :
  free_list_inv m -> free_list_size m = 0 ->
  collect PN (iter m) = map (fun h => (h, get_value PN (values m) (index h))) (indices m) /\
  collect_rev PN (iter m) = reverse (map (fun h => (h, get_value PN (values m) (index h))) (indices m)).
Proof.
  intros Hinv H0.
  assert (Hl : forall j h, indices m !! j = Some h -> index h = 0 + j).
  { intros j h Hj. destruct (decide (index h = j)) as [E | E]; [lia |].
    exfalso. assert (Hin : j ∈ chain_of m) by (apply (fl_dead _ Hinv); by exists h).
    unfold chain_of in Hin. rewrite H0 in Hin. inversion Hin. }
  split.
  - unfold collect, iter. cbn [it_index]. apply collect_go_next_live; [done | lia].
  - unfold collect_rev, iter. cbn [it_index].
    replace (len m) with (0 + length (indices m)) by (unfold len; lia).
    apply collect_go_back_live; [done | lia].
Qed.

End Storage.

(** [push]: on a map that keeps the free-list invariant and whose pages
    cover every slot, the returned handle was not valid before and now
    reads the pushed value, every other handle reads as before, [len]
    grows by one, and both invariants still hold. *)
Theorem slotmap_push_get {T : Type} (PN : nat) (m : PagedSlotMap (T:=T)) (v : T) :
  free_list_inv m -> pages_wf PN m ->
  get PN (fst (push PN m v)) (snd (push PN m v)) = Some (Some v) /\
  get PN m (snd (push PN m v)) = None /\
  (forall k, k <> snd (push PN m v) -> get PN (fst (push PN m v)) k = get PN m k) /\
  len (fst (push PN m v)) = S (len m) /\
  free_list_inv (fst (push PN m v)) /\ pages_wf PN (fst (push PN m v)).
Proof. apply push_spec. Qed.

(** The theorem on a map with one free slot (slot 1 of three): the push
    reuses it. *)
Lemma slotmap_push_get_witness :
  let m := fst (remove 2 (fst (push_all 2 new [10; 11; 12])) (from_index 1)) in
  free_list_inv m /\ pages_wf 2 m /\
  snd (push 2 m 20) = from_raw_parts 1 2%N /\
  get 2 (fst (push 2 m 20)) (from_raw_parts 1 2%N) = Some (Some 20).
Proof.
  intros m.
  assert (Hm : free_list_inv m).
  { apply remove_live_free_list; [apply push_all_free_list_inv, new_free_list_inv | vm_compute; reflexivity]. }
  assert (Hw : pages_wf 2 m).
  { split; [lia |]. split; [vm_compute; repeat constructor | vm_compute; lia]. }
  split; [done |]. split; [done |]. split; [vm_compute; reflexivity |].
  exact (proj1 (slotmap_push_get 2 m 20 Hm Hw)).
Defined.

(** [remove] of a valid handle returns its value; afterwards the handle
    is invalid and a second [remove] returns [None], every other handle
    reads as before, [len] drops by one, and both invariants still
    hold. *)
Theorem slotmap_remove_get {T : Type} (PN : nat) (m : PagedSlotMap (T:=T)) (k : handle) (c : option T) :
  free_list_inv m -> pages_wf PN m -> get PN m k = Some c ->
  snd (remove PN m k) = Some c /\
  get PN (fst (remove PN m k)) k = None /\
  snd (remove PN (fst (remove PN m k)) k) = None /\
  (forall k', k' <> k -> get PN (fst (remove PN m k)) k' = get PN m k') /\
  S (len (fst (remove PN m k))) = len m /\
  free_list_inv (fst (remove PN m k)) /\ pages_wf PN (fst (remove PN m k)).
Proof. apply remove_spec. Qed.

Lemma slotmap_remove_get_witness :
  let m := fst (push_all 2 new [10; 11; 12]) in
  free_list_inv m /\ pages_wf 2 m /\ get 2 m (from_index 1) = Some (Some 11) /\
  snd (remove 2 m (from_index 1)) = Some (Some 11).
Proof.
  intros m.
  assert (Hm : free_list_inv m) by (apply push_all_free_list_inv, new_free_list_inv).
  assert (Hw : pages_wf 2 m).
  { split; [lia |]. split; [vm_compute; repeat constructor | vm_compute; lia]. }
  assert (Hg : get 2 m (from_index 1) = Some (Some 11)) by (vm_compute; reflexivity).
  split; [done |]. split; [done |]. split; [done |].
  exact (proj1 (slotmap_remove_get 2 m (from_index 1) (Some 11) Hm Hw Hg)).
Defined.

(** [MapInsert::insert] on a valid handle replaces its value and returns
    the old one, leaving every other handle and the free list as they
    were; on a handle [get] does not find it returns [None] and changes
    nothing. *)
Theorem slotmap_map_insert {T : Type} (PN : nat) (m : PagedSlotMap (T:=T)) (k : handle) (v : T) :
  pages_wf PN m ->
  (forall c, get PN m k = Some c ->
     snd (map_insert PN m k v) = Some c /\
     get PN (fst (map_insert PN m k v)) k = Some (Some v) /\
     (forall k', k' <> k -> get PN (fst (map_insert PN m k v)) k' = get PN m k') /\
     indices (fst (map_insert PN m k v)) = indices m /\
     free_list_head (fst (map_insert PN m k v)) = free_list_head m /\
     free_list_tail (fst (map_insert PN m k v)) = free_list_tail m /\
     free_list_size (fst (map_insert PN m k v)) = free_list_size m) /\
  (get PN m k = None -> map_insert PN m k v = (m, None)).
Proof. apply map_insert_spec. Qed.

Lemma slotmap_map_insert_witness :
  let m := fst (push_all 2 new [10; 11; 12]) in
  pages_wf 2 m /\
  snd (map_insert 2 m (from_index 2) 42) = Some (Some 12) /\
  get 2 (fst (map_insert 2 m (from_index 2) 42)) (from_index 2) = Some (Some 42).
Proof.
  intros m.
  assert (Hw : pages_wf 2 m).
  { split; [lia |]. split; [vm_compute; repeat constructor | vm_compute; lia]. }
  destruct (proj1 (slotmap_map_insert 2 m (from_index 2) 42 Hw) (Some 12) ltac:(vm_compute; reflexivity))
    as (H1 & H2 & _).
  split; [done |]. split; [exact H1 | exact H2].
Defined.

(** [FromIterator]: collecting [n] values into a map with a positive page
    size returns the handles [from_index(0)], ..., [from_index(n-1)];
    a handle reads the value at its index exactly when its generation is
    1; [len] is [n]; both invariants hold. *)
Theorem slotmap_from_iter {T : Type} (PN : nat) (vs : list T) :
  0 < PN ->
  snd (push_all PN new vs) = map from_index (seq 0 (length vs)) /\
  (forall k, get PN (from_iter PN vs) k =
             if decide (generation k = 1%N) then Some <$> vs !! index k else None) /\
  len (from_iter PN vs) = length vs /\
  free_list_inv (from_iter PN vs) /\ pages_wf PN (from_iter PN vs).
Proof. apply from_iter_spec. Qed.

Lemma slotmap_from_iter_witness :
  0 < 2 /\ get 2 (from_iter 2 [7; 8; 9]) (from_index 2) = Some (Some 9) /\
  len (from_iter 2 [7; 8; 9]) = 3.
Proof.
  destruct (slotmap_from_iter 2 [7; 8; 9] ltac:(lia)) as (_ & Hget & Hlen & _).
  split; [lia |]. split; [| exact Hlen]. rewrite Hget. reflexivity.
Defined.

(** [iter()] and [iter().rev()] on a map without free slots (and keeping
    the free-list invariant) yield every slot's handle with its cell,
    in slot order and in reverse slot order. *)
Theorem slotmap_iter_all_live {T : Type} (PN : nat) (m : PagedSlotMap (T:=T)) :
  free_list_inv m -> free_list_size m = 0 ->
  collect PN (iter m) = map (fun h => (h, get_value PN (values m) (index h))) (indices m) /\
  collect_rev PN (iter m) = reverse (map (fun h => (h, get_value PN (values m) (index h))) (indices m)).
Proof. apply iter_all_live. Qed.

Lemma slotmap_iter_all_live_witness :
  let m := fst (push_all 2 new [10; 11; 12]) in
  free_list_inv m /\ free_list_size m = 0 /\
  collect_rev 2 (iter m) = [(from_index 2, Some 12); (from_index 1, Some 11); (from_index 0, Some 10)].
Proof.
  intros m.
  assert (Hm : free_list_inv m) by (apply push_all_free_list_inv, new_free_list_inv).
  split; [done |]. split; [reflexivity |].
  rewrite (proj2 (slotmap_iter_all_live 2 m Hm eq_refl)). vm_compute. reflexivity.
Defined.

End SlotMapFacts.

(* ================================================================== *)
(** ** SparseSet: the map operations *)

Module SparseSetFacts.
Import SparseSet SparseSetProofs.

Section Facts.
Context {T : Type}.
Implicit Types (s : SparseSet (T:=T)).

Lemma get_Some_entry s k v :
  get s k = Some v -> exists p, entries s !! p = Some (k, v).
Proof.
  unfold get, get_sparse_dense_indices; cbn [snd].
  destruct (sparse s !! index k) as [d |]; [| discriminate].
  destruct (entry_at (entries s) d) as [[k' w] |] eqn:E; [| discriminate].
  destruct (decide (k = k')) as [<- |]; [| discriminate].
  intros [= <-]. exists (N.to_nat d). by apply entry_at_Some.
Qed.

Lemma get_entry s p k v :
  sparse_wf s -> entries s !! p = Some (k, v) -> get s k = Some v.
Proof.
  intros Hwf Hp. unfold get, get_sparse_dense_indices; cbn [snd].
  rewrite (Hwf _ _ _ Hp), entry_at_of_nat, Hp. by rewrite decide_True.
Qed.

(** Under [sparse_wf], [get] finds exactly the stored pairs. *)
Lemma get_spec s k v :
  sparse_wf s -> (get s k = Some v <-> exists p, entries s !! p = Some (k, v)).
Proof.
  intros Hwf. split; [apply get_Some_entry |]. intros [p Hp]. by eapply get_entry.
Qed.

Lemma sparse_get_ext s s' k :
  sparse_wf s -> sparse_wf s' ->
  (forall w, (exists p, entries s' !! p = Some (k, w)) <-> (exists p, entries s !! p = Some (k, w))) ->
  get s' k = get s k.
Proof.
  intros Hwf Hwf' Hiff. destruct (get s k) as [w |] eqn:E.
  - apply (get_spec s' k w Hwf'), Hiff, (get_spec s k w Hwf), E.
  - destruct (get s' k) as [w |] eqn:E'; [| done].
    apply (get_spec s' k w Hwf'), Hiff, (get_spec s k w Hwf) in E'. congruence.
Qed.

Lemma sparse_wf_new : sparse_wf (T:=T) new.
Proof. intros p k v Hp. by destruct p. Qed.

(** [insert] keeps [sparse_wf]; a handle whose index no entry has is
    appended. *)
Lemma insert_absent_wf junk slack s (i : handle) (v : T) :
  sparse_wf s ->
  (forall p k w, entries s !! p = Some (k, w) -> index k <> index i) ->
  sparse_wf (fst (SparseSet.insert junk slack s i v)).
Proof.
  intros Hwf Habs.
  destruct (insert_absent junk slack s i v Habs) as (He & _ & Hsi & Hle & Hlt & Hkeep).
  intros q k w Hq. rewrite He in Hq.
  apply lookup_app_Some in Hq as [Hq | [Hlen Hq]].
  - rewrite Hkeep; [exact (Hwf _ _ _ Hq) | by eapply Habs |].
    by eapply sparse_wf_in_range.
  - apply list_lookup_singleton_Some in Hq as [Hq [= <- _]].
    rewrite Hsi. do 2 f_equal. lia.
Qed.

Lemma insert_absent_spec junk slack s (i : handle) (v : T) :
  sparse_wf s ->
  (forall p k w, entries s !! p = Some (k, w) -> index k <> index i) ->
  sparse_wf (fst (SparseSet.insert junk slack s i v)) /\
  (forall j, index j <> index i -> get (fst (SparseSet.insert junk slack s i v)) j = get s j) /\
  ((forall p k w, entries s !! p = Some (k, w) -> index k = index i -> k = i) ->
   get (fst (SparseSet.insert junk slack s i v)) i = Some v /\
   snd (SparseSet.insert junk slack s i v) = get s i) /\
  len (fst (SparseSet.insert junk slack s i v)) =
    match snd (SparseSet.insert junk slack s i v) with Some _ => len s | None => S (len s) end.
Proof.
  intros Hwf Habs.
  pose proof (insert_absent_wf junk slack s i v Hwf Habs) as Hwf'.
  destruct (insert_absent junk slack s i v Habs) as (Hes & Hr & _).
  split; [done |].
  split.
  { intros j Hj. apply sparse_get_ext; [done | done |]. intros w'.
    rewrite Hes. split; intros [q Hq].
    - apply lookup_app_Some in Hq as [Hq | [_ Hq]]; [by exists q |].
      apply list_lookup_singleton_Some in Hq as [_ [= -> _]]. done.
    - exists q. by apply lookup_app_l_Some. }
  split.
  { intros _. split.
    - apply (get_entry _ (length (entries s))); [done |]. rewrite Hes.
      by apply list_lookup_middle.
    - rewrite Hr. destruct (get s i) as [w' |] eqn:Eg; [| done].
      apply get_Some_entry in Eg as [p Hp]. exfalso. by eapply Habs. }
  rewrite Hr. unfold len. rewrite Hes, length_app. cbn [length]. lia.
Qed.

Lemma insert_spec junk slack s (i : handle) (v : T) :
  sparse_wf s ->
  sparse_wf (fst (SparseSet.insert junk slack s i v)) /\
  (forall j, index j <> index i -> get (fst (SparseSet.insert junk slack s i v)) j = get s j) /\
  ((forall p k w, entries s !! p = Some (k, w) -> index k = index i -> k = i) ->
   get (fst (SparseSet.insert junk slack s i v)) i = Some v /\
   snd (SparseSet.insert junk slack s i v) = get s i) /\
  len (fst (SparseSet.insert junk slack s i v)) =
    match snd (SparseSet.insert junk slack s i v) with Some _ => len s | None => S (len s) end.
Proof.
  intros Hwf.
  destruct (sparse s !! index i) as [d |] eqn:Hd;
    [destruct (entry_at (entries s) d) as [[k w] |] eqn:He;
     [destruct (Nat.eqb_spec (index i) (index k)) as [Eik | Eik] |] |].
  - (* the sparse slot leads to an entry with the same index: replace *)
    assert (Hins : SparseSet.insert junk slack s i v =
                   (mkSet (sparse s) (<[N.to_nat d := (k, v)]> (entries s)), Some w)).
    { unfold SparseSet.insert, get_sparse_dense_indices. cbn [fst snd].
      rewrite Hd, He, <- Eik, Nat.eqb_refl. reflexivity. }
    apply entry_at_Some in He. set (p := N.to_nat d) in *.
    assert (Hplt : p < length (entries s)) by (by apply lookup_lt_Some in He).
    assert (Hwf' : sparse_wf (mkSet (sparse s) (<[p := (k, v)]> (entries s)))).
    { intros q k' w' Hq. cbn [entries sparse] in *.
      destruct (decide (q = p)) as [-> | Hqp].
      - rewrite list_lookup_insert_eq in Hq by done. injection Hq as <- <-. by apply (Hwf _ _ _ He).
      - rewrite list_lookup_insert_ne in Hq by congruence. by apply (Hwf _ _ _ Hq). }
    rewrite Hins. cbn [fst snd].
    split; [done |]. split.
    { intros j Hj. apply sparse_get_ext; [done | done |]. intros w'. cbn [entries].
      split; intros [q Hq]; exists q.
      - destruct (decide (q = p)) as [-> | Hqp].
        + rewrite list_lookup_insert_eq in Hq by done. injection Hq as <- _. congruence.
        + by rewrite list_lookup_insert_ne in Hq by congruence.
      - destruct (decide (q = p)) as [-> | Hqp].
        + rewrite He in Hq. injection Hq as <- _. congruence.
        + by rewrite list_lookup_insert_ne by congruence. }
    split.
    { intros Huniq. assert (k = i) as -> by (eapply Huniq; [exact He | congruence]).
      split.
      - eapply (get_entry _ p); [done |]. cbn [entries]. by rewrite list_lookup_insert_eq.
      - symmetry. by eapply get_entry. }
    unfold len. cbn [entries]. by rewrite length_insert.
  - apply insert_absent_spec; [done |].
    intros p k' w' Hp Ek. pose proof (Hwf _ _ _ Hp) as Hs. rewrite Ek, Hd in Hs.
    injection Hs as ->. rewrite entry_at_of_nat, Hp in He. injection He as -> ->. congruence.
  - apply insert_absent_spec; [done |].
    intros p k' w' Hp Ek. pose proof (Hwf _ _ _ Hp) as Hs. rewrite Ek, Hd in Hs.
    injection Hs as ->. rewrite entry_at_of_nat, Hp in He. discriminate.
  - apply insert_absent_spec; [done |].
    intros p k' w' Hp Ek. pose proof (Hwf _ _ _ Hp) as Hs. rewrite Ek, Hd in Hs. discriminate.
Qed.

(** [swap_remove] of the last element drops it. *)
Lemma swap_remove_last {A} (l : list A) d q :
  S d = length l -> swap_remove l d !! q = if decide (q < d) then l !! q else None.
Proof.
  intros Hd. unfold swap_remove.
  destruct (last l) as [x |] eqn:Hl; [| destruct l; simpl in Hd; [lia | by rewrite last_cons in Hl; destruct (last l)]].
  case_decide as Hq.
  - rewrite lookup_take_lt by lia. apply list_lookup_insert_ne. lia.
  - apply lookup_take_ge. lia.
Qed.

(** [remove] of the last entry. *)
Lemma remove_last_shape s (i : handle) (v : T) p :
  sparse_wf s -> entries s !! p = Some (i, v) -> S p = length (entries s) ->
  remove s i = (mkSet (<[index i := usize_max]> (sparse s)) (swap_remove (entries s) p), Some v).
Proof.
  intros Hwf Hp Hlen. pose proof (Hwf _ _ _ Hp) as Hsi.
  unfold remove, get_sparse_dense_indices. cbn [fst snd]. rewrite Hsi, entry_at_of_nat, Hp.
  destruct (decide (i <> i)) as [[] |]; [done |].
  destruct (N.ltb_spec (N.of_nat p) (N.of_nat (length (entries s) - 1))) as [H | _]; [lia |].
  rewrite Hsi, Nat2N.id. reflexivity.
Qed.

(** [remove] of a live entry at position [p]: the other entries stay,
    [sparse_wf] is kept. *)
Lemma remove_live s (i : handle) (v : T) p :
  sparse_wf s -> entries s !! p = Some (i, v) ->
  snd (remove s i) = Some v /\
  sparse_wf (fst (remove s i)) /\
  length (entries (fst (remove s i))) = length (entries s) - 1 /\
  (forall e, (exists q, entries (fst (remove s i)) !! q = Some e) <->
             (exists q, q <> p /\ entries s !! q = Some e)).
Proof.
  intros Hwf Hp. pose proof (lookup_lt_Some _ _ _ Hp) as Hplt.
  pose proof (sparse_wf_in_range s _ _ _ Hwf Hp) as Hir.
  destruct (decide (S p < length (entries s))) as [Hlt | Hge].
  - destruct (last (entries s)) as [[lk lv] |] eqn:Hlast;
      [| apply last_None in Hlast; rewrite Hlast in Hplt; simpl in Hplt; lia].
    assert (Hlast' : entries s !! (length (entries s) - 1) = Some (lk, lv)).
    { rewrite last_lookup in Hlast. by replace (length (entries s) - 1) with (pred (length (entries s))) by lia. }
    destruct (remove_swap s i v p lk lv Hwf Hp Hlt Hlast) as [Hr Hne]. rewrite Hr. cbn [fst snd entries sparse].
    destruct (swap_remove_spec (entries s) p (lk, lv) Hlt Hlast) as (Hl & Hat & Hother).
    pose proof (sparse_wf_in_range s _ _ _ Hwf Hlast') as Hlk.
    split; [done |]. split; [| split; [done |]].
    + intros q k w Hq. cbn [entries sparse] in *.
      destruct (decide (q = p)) as [-> | Hqp].
      * rewrite Hat in Hq. injection Hq as <- <-.
        rewrite list_lookup_insert_ne by done. apply list_lookup_insert_eq. done.
      * assert (Hql : q < length (entries s) - 1) by (rewrite <- Hl; by eapply lookup_lt_Some).
        rewrite Hother in Hq by done.
        assert (index k <> index i) by (intros E; pose proof (sparse_wf_inj s _ _ _ _ _ _ Hwf Hq Hp E); lia).
        assert (index k <> index lk) by (intros E; pose proof (sparse_wf_inj s _ _ _ _ _ _ Hwf Hq Hlast' E); lia).
        rewrite !list_lookup_insert_ne by congruence. exact (Hwf _ _ _ Hq).
    + intros e. split; intros [q Hq].
      * destruct (decide (q = p)) as [-> | Hqp].
        { rewrite Hat in Hq. injection Hq as <-. exists (length (entries s) - 1). split; [lia | done]. }
        assert (Hql : q < length (entries s) - 1) by (rewrite <- Hl; by eapply lookup_lt_Some).
        exists q. rewrite Hother in Hq by done. done.
      * destruct Hq as [Hqp Hq].
        destruct (decide (q = length (entries s) - 1)) as [-> | Hql].
        { exists p. rewrite Hat. congruence. }
        exists q. rewrite Hother; [done | done |].
        apply lookup_lt_Some in Hq. lia.
  - assert (Hlen : S p = length (entries s)) by lia.
    rewrite (remove_last_shape s i v p Hwf Hp Hlen). cbn [fst snd entries sparse].
    split; [done |]. split; [| split].
    + intros q k w Hq. cbn [entries sparse] in *. rewrite swap_remove_last in Hq by done.
      case_decide as Hqp; [| discriminate].
      assert (index k <> index i) by (intros E; pose proof (sparse_wf_inj s _ _ _ _ _ _ Hwf Hq Hp E); lia).
      rewrite list_lookup_insert_ne by congruence. exact (Hwf _ _ _ Hq).
    + unfold swap_remove. destruct (last (entries s)) eqn:Hl;
        [| apply last_None in Hl; rewrite Hl in Hplt; simpl in Hplt; lia].
      rewrite length_take, length_insert. lia.
    + intros e. split; intros [q Hq].
      * rewrite swap_remove_last in Hq by done. case_decide as Hqp; [| discriminate].
        exists q. split; [lia | done].
      * destruct Hq as [Hqp Hq]. exists q. rewrite swap_remove_last by done.
        apply lookup_lt_Some in Hq as Hql. rewrite decide_True by lia. done.
Qed.

(** [remove] of a handle [get] does not find leaves the set as it is. *)
Lemma remove_absent s (i : handle) :
  get s i = None -> remove s i = (s, None).
Proof.
  unfold get, remove, get_sparse_dense_indices. cbn [fst snd].
  destruct (sparse s !! index i) as [d |]; [| done].
  destruct (entry_at (entries s) d) as [[k w] |]; [| done].
  destruct (decide (i = k)) as [-> | Hne]; [discriminate |].
  intros _. by rewrite decide_True by congruence.
Qed.

Lemma sparse_remove_spec s (i : handle) :
  sparse_wf s ->
  (get s i = None -> remove s i = (s, None)) /\
  (forall v, get s i = Some v ->
     snd (remove s i) = Some v /\
     sparse_wf (fst (remove s i)) /\
     get (fst (remove s i)) i = None /\
     (forall j, j <> i -> get (fst (remove s i)) j = get s j) /\
     S (len (fst (remove s i))) = len s).
Proof.
  intros Hwf. split; [apply remove_absent |].
  intros v Hv. apply (get_spec s i v Hwf) in Hv as [p Hp].
  destruct (remove_live s i v p Hwf Hp) as (Hr & Hwf' & Hl & Hent).
  split; [done |]. split; [done |]. split.
  - destruct (get (fst (remove s i)) i) as [w |] eqn:E; [| done].
    apply (get_spec _ i w Hwf'), Hent in E as (q & Hqp & Hq).
    exfalso. apply Hqp. exact (sparse_wf_inj s q p i w i v Hwf Hq Hp eq_refl).
  - split.
    + intros j Hj. apply sparse_get_ext; [done | done |]. intros w. rewrite Hent.
      split; [intros (q & _ & Hq); by exists q |].
      intros [q Hq]. exists q. split; [| done]. intros ->. rewrite Hp in Hq. congruence.
    + unfold len. rewrite Hl. apply lookup_lt_Some in Hp. lia.
Qed.

(** [sort_by], whatever the comparator, keeps [sparse_wf], the number of
    entries and what [get] returns. *)
Lemma sort_by_spec (compare : handle * T -> handle * T -> comparison) s :
  sparse_wf s ->
  sparse_wf (sort_by compare s) /\
  (forall k, get (sort_by compare s) k = get s k) /\
  len (sort_by compare s) = len s.
Proof.
  intros Hwf. pose proof (stable_sort_perm compare (entries s)) as Hperm.
  assert (Hwf' : sparse_wf (sort_by compare s)).
  { destruct (sparse_wf_keys s Hwf) as [Hnd Hr].
    intros p k v Hp. unfold sort_by in *. cbn [entries sparse] in *.
    apply (fix_sparse_at 0 _ _ p k v); [| | done].
    - by rewrite Hperm.
    - by rewrite Hperm. }
  split; [done |]. split.
  - intros k. apply sparse_get_ext; [done | done |]. intros w.
    unfold sort_by. cbn [entries].
    rewrite <- !list_elem_of_lookup. by rewrite Hperm.
  - unfold len, sort_by. cbn [entries]. by apply Permutation_length.
Qed.

(** [extend] with pairs whose indices are new and distinct appends them. *)
Lemma extend_spec env n s (l : list (handle * T)) :
  sparse_wf s -> NoDup ((fun e => index (fst e)) <$> (entries s ++ l)) ->
  entries (extend env n s l) = entries s ++ l /\ sparse_wf (extend env n s l).
Proof.
  revert n s; induction l as [|[i v] l IH]; intros n s Hwf Hnd; cbn [extend].
  - by rewrite app_nil_r.
  - assert (Habs : forall p k w, entries s !! p = Some (k, w) -> index k <> index i).
    { intros p k w Hp E. rewrite fmap_app in Hnd. apply NoDup_app in Hnd as (_ & Hdis & _).
      apply (Hdis (index k)).
      - apply list_elem_of_lookup. exists p. by rewrite list_lookup_fmap, Hp.
      - rewrite E. cbn [fmap list_fmap fst]. by left. }
    pose proof (insert_absent_wf (fst (env n)) (snd (env n)) s i v Hwf Habs) as Hwf1.
    destruct (insert_absent (fst (env n)) (snd (env n)) s i v Habs) as (He1 & _).
    destruct (IH (S n) _ Hwf1) as [He Hwf2].
    + by rewrite He1, <- app_assoc.
    + split; [| done]. by rewrite He, He1, <- app_assoc.
Qed.

End Facts.

Ltac wf_concrete :=
  let p := fresh "p" in let k := fresh "k" in let w := fresh "w" in let H := fresh "H" in
  intros p k w H; repeat (destruct p as [|p]; simpl in H; [injection H as <- _; reflexivity |]);
  discriminate.

(** [get] on a well-formed sparse set returns [v] for [k] exactly when
    the pair [(k, v)] is stored. *)
Theorem sparseset_get_spec {T : Type} (s : SparseSet (T:=T)) (k : handle) (v : T) :
  sparse_wf s -> (get s k = Some v <-> exists p, entries s !! p = Some (k, v)).
Proof. apply get_spec. Qed.

Lemma sparseset_get_spec_witness :
  let s := mkSet [2%N; 0%N; 1%N] [(from_index 1, 10); (from_index 2, 20); (from_index 0, 30)] in
  sparse_wf s /\ get s (from_index 0) = Some 30.
Proof.
  intros s. assert (Hwf : sparse_wf s) by wf_concrete.
  split; [done |]. apply (sparseset_get_spec s (from_index 0) 30 Hwf). by exists 2.
Defined.

(** [insert] keeps a sparse set well formed and leaves every handle with
    another index as it was. When no entry has the index of [i] with
    another generation, [i] then reads [v] and the result is the value [i]
    had. The entry count grows by one exactly when the result is
    [None]. *)
Theorem sparseset_insert {T : Type} (junk : nat -> N) (slack : nat) (s : SparseSet (T:=T))
    (i : handle) (v : T) :
  sparse_wf s ->
  sparse_wf (fst (SparseSet.insert junk slack s i v)) /\
  (forall j, index j <> index i -> get (fst (SparseSet.insert junk slack s i v)) j = get s j) /\
  ((forall p k w, entries s !! p = Some (k, w) -> index k = index i -> k = i) ->
   get (fst (SparseSet.insert junk slack s i v)) i = Some v /\
   snd (SparseSet.insert junk slack s i v) = get s i) /\
  len (fst (SparseSet.insert junk slack s i v)) =
    match snd (SparseSet.insert junk slack s i v) with Some _ => len s | None => S (len s) end.
Proof. apply insert_spec. Qed.

Lemma sparseset_insert_witness :
  let s := mkSet [2%N; 0%N; 1%N] [(from_index 1, 10); (from_index 2, 20); (from_index 0, 30)] in
  sparse_wf s /\
  get (fst (SparseSet.insert (fun _ => 7%N) 1 s (from_index 6) 60)) (from_index 6) = Some 60 /\
  get (fst (SparseSet.insert (fun _ => 7%N) 1 s (from_index 6) 60)) (from_index 2) = Some 20.
Proof.
  intros s. assert (Hwf : sparse_wf s) by wf_concrete.
  destruct (sparseset_insert (fun _ => 7%N) 1 s (from_index 6) 60 Hwf) as (_ & Hfr & Hnew & _).
  split; [done |]. split.
  - apply Hnew. intros p k w Hp Ek.
    repeat (destruct p as [|p]; simpl in Hp; [injection Hp as <- _; discriminate |]). discriminate.
  - rewrite Hfr by discriminate. reflexivity.
Defined.

(** [remove] on a well-formed sparse set: for a handle [get] does not
    find, it returns [None] and changes nothing; for one it finds, it
    returns its value, the set stays well formed, the handle is gone,
    every other handle reads as before and one entry fewer is left. *)
Theorem sparseset_remove {T : Type} (s : SparseSet (T:=T)) (i : handle) :
  sparse_wf s ->
  (get s i = None -> remove s i = (s, None)) /\
  (forall v, get s i = Some v ->
     snd (remove s i) = Some v /\
     sparse_wf (fst (remove s i)) /\
     get (fst (remove s i)) i = None /\
     (forall j, j <> i -> get (fst (remove s i)) j = get s j) /\
     S (len (fst (remove s i))) = len s).
Proof. apply sparse_remove_spec. Qed.

Lemma sparseset_remove_witness :
  let s := mkSet [2%N; 0%N; 1%N] [(from_index 1, 10); (from_index 2, 20); (from_index 0, 30)] in
  sparse_wf s /\
  snd (remove s (from_index 0)) = Some 30 /\
  get (fst (remove s (from_index 0))) (from_index 1) = Some 10.
Proof.
  intros s. assert (Hwf : sparse_wf s) by wf_concrete.
  destruct (proj2 (sparseset_remove s (from_index 0) Hwf) 30 eq_refl) as (H1 & _ & _ & Hfr & _).
  split; [done |]. split; [done |]. rewrite Hfr by discriminate. reflexivity.
Defined.

(** [sort_by], whatever the comparator, keeps a sparse set well formed,
    keeps its number of entries, and leaves what every handle reads
    unchanged. *)
Theorem sparseset_sort_by_get {T : Type} (compare : handle * T -> handle * T -> comparison)
    (s : SparseSet (T:=T)) :
  sparse_wf s ->
  sparse_wf (sort_by compare s) /\
  (forall k, get (sort_by compare s) k = get s k) /\
  len (sort_by compare s) = len s.
Proof. apply sort_by_spec. Qed.

Lemma sparseset_sort_by_get_witness :
  let s := mkSet [2%N; 0%N; 1%N] [(from_index 1, 10); (from_index 2, 20); (from_index 0, 30)] in
  sparse_wf s /\
  get (sort_by (fun a b => Nat.compare (snd b) (snd a)) s) (from_index 1) = Some 10.
Proof.
  intros s. assert (Hwf : sparse_wf s) by wf_concrete.
  split; [done |].
  rewrite (proj1 (proj2 (sparseset_sort_by_get (fun a b => Nat.compare (snd b) (snd a)) s Hwf))).
  reflexivity.
Defined.

(** [FromIterator]: pairs with distinct indices are stored in the given
    order, the set is well formed, a handle reads [v] exactly when
    [(k, v)] was given, and there are as many entries as pairs --
    whatever memory the sparse array exposes. *)
Theorem sparseset_from_iter {T : Type} (env : nat -> (nat -> N) * nat) (l : list (handle * T)) :
  NoDup ((fun e => index (fst e)) <$> l) ->
  entries (from_iter env l) = l /\
  sparse_wf (from_iter env l) /\
  (forall k v, get (from_iter env l) k = Some v <-> exists p, l !! p = Some (k, v)) /\
  len (from_iter env l) = length l.
Proof.
  intros Hnd. unfold from_iter.
  destruct (extend_spec env 0 new l sparse_wf_new Hnd) as [He Hwf]. cbn [entries new app] in He.
  split; [done |]. split; [done |]. split.
  - intros k v. rewrite (get_spec _ k v Hwf), He. done.
  - unfold len. by rewrite He.
Qed.

Lemma sparseset_from_iter_witness :
  NoDup ((fun e : handle * nat => index (fst e)) <$> [(from_index 4, 1); (from_raw_parts 0 3%N, 2)]) /\
  get (from_iter (fun n => (fun p => N.of_nat (n + p), n)) [(from_index 4, 1); (from_raw_parts 0 3%N, 2)])
    (from_raw_parts 0 3%N) = Some 2.
Proof.
  assert (Hnd : NoDup ((fun e : handle * nat => index (fst e)) <$>
                       [(from_index 4, 1); (from_raw_parts 0 3%N, 2)])).
  { apply (bool_decide_unpack _). vm_compute. exact I. }
  split; [done |].
  apply (sparseset_from_iter (fun n => (fun p => N.of_nat (n + p), n)) _ Hnd). by exists 1.
Defined.

End SparseSetFacts.
